(** * wsecho: the websocket echo handler and the latency probe client

    A shallow embedding of [wsecho.go].  The two routines of the package,
    [ServeHTTP] (the per-connection echo handler) and [Ping] (the probe
    client), are written in a small state-and-trace monad whose primitive
    actions are the calls the Go code makes on its collaborators: the
    gorilla/websocket connection ([ReadMessage], [WriteMessage], [Close],
    the three control-frame handlers), the cancellable context, the logger
    and the clock.  What the network, the peer and the clock do is not
    decided by the program; it is supplied by an environment [Env] and by
    the list of frames waiting on the connection, and every theorem
    quantifies over both. *)

From Stdlib Require Import List ZArith Lia Bool String Arith.
From Stdlib.Strings Require Import Byte.
Import ListNotations.
Local Open Scope Z_scope.

(** ** Data *)

Definition bytes := list byte.

(** gorilla/websocket message types (RFC 6455 opcodes). *)
Definition TextMessage : Z := 1.
Definition BinaryMessage : Z := 2.
Definition CloseMessage : Z := 8.
Definition PingMessage : Z := 9.
Definition PongMessage : Z := 10.
(** The frame type [NextReader] returns together with an error. *)
Definition noFrame : Z := -1.

(** Go [error] values.  [Errorf msg e] is [fmt.Errorf(msg + ": %w", e)]. *)
Inductive error : Type :=
| ErrTransport (id : nat)
| ErrHandshake (reason : string)
| ErrOrigin
| CloseError (code : Z) (text : bytes)
| Errorf (msg : string) (e : error).

(** What arrives on a connection, in arrival order: data frames, control
    frames, or a failure of the underlying transport. *)
Inductive wire : Type :=
| WText (p : bytes)
| WBinary (p : bytes)
| WPing (p : bytes)
| WPong (p : bytes)
| WClose (code : Z) (text : bytes)
| WFail (e : error).

(** Lines handed to the [log] package; one constructor per format string
    of the source. *)
Inductive logline : Type :=
| LogPing (appData : bytes)
| LogPong (appData : bytes)
| LogClose (code : Z) (text : bytes)
| LogRecv (n : Z)
| LogSent (n : Z) (d : Z)
| LogAverage
| LogErr (e : error).

(** Observable actions of a run, in program order. *)
Inductive event : Type :=
| EvRecv (w : wire)
| EvWrite (messageType : Z) (data : bytes) (res : option error)
| EvLog (l : logline)
| EvCancel
| EvClose (res : option error).

Record Request : Type := {
  Method : string;
  URL : string;
  Header : list (string * list string)
}.

(** [websocket.Upgrader], reduced to the one field the source sets. *)
Record Upgrader : Type := { CheckOrigin : Request -> bool }.

Record Server : Type := { upgrader : Upgrader }.

(** ** 64-bit integers

    [int] and [time.Duration] are taken as 64-bit two's complement. *)

Definition wrap64 (z : Z) : Z := (z + 2 ^ 63) mod 2 ^ 64 - 2 ^ 63.
Definition maxDuration : Z := 2 ^ 63 - 1.
Definition minDuration : Z := - 2 ^ 63.
Definition fits64 (z : Z) : Prop := minDuration <= z <= maxDuration.

(** [time.subMono]: the saturating difference of two monotonic readings. *)
Definition subMono (t u : Z) : Z :=
  let d := wrap64 (t - u) in
  if (d <? 0) && (u <? t) then maxDuration
  else if (0 <? d) && (t <? u) then minDuration
  else d.

(** ** The environment and the monad *)

Record Env : Type := {
  (** outcome of the handshake of [Upgrade], the origin check aside *)
  handshake : Request -> option string;
  (** outcome of [dialer.Dial host] with [InsecureSkipVerify] as given *)
  dial : string -> bool -> option error;
  (** outcome of the i-th [WriteMessage] on the connection *)
  write_res : nat -> option error;
  (** outcome of [conn.Close] *)
  close_res : option error;
  (** whether the parent context is done at the i-th poll of [ctx.Done] *)
  parent_done : nat -> bool;
  (** the i-th reading of the monotonic clock *)
  mono : nat -> Z
}.

Record St : Type := {
  inq : list wire;
  writes : nat;
  polls : nat;
  ticks : nat;
  cancelled : bool
}.

Definition init (inbound : list wire) : St :=
  {| inq := inbound; writes := 0; polls := 0; ticks := 0; cancelled := false |}.

(** Why a computation did not return to its caller. *)
Inductive stop : Type :=
| Blocked      (* waiting for a frame that the peer has not sent *)
| Panicked     (* a run-time panic *)
| NoFuel.      (* the loop bound of the model was reached *)

Inductive outcome (A : Type) : Type :=
| Ret (a : A)
| Stop (why : stop).
Arguments Ret {A} a.
Arguments Stop {A} why.

Definition M (A : Type) : Type := St -> outcome A * St * list event.

Definition ret {A} (a : A) : M A := fun s => (Ret a, s, []).

Definition bind {A B} (m : M A) (f : A -> M B) : M B := fun s =>
  match m s with
  | (Ret a, s1, t1) => let '(o, s2, t2) := f a s1 in (o, s2, t1 ++ t2)
  | (Stop why, s1, t1) => (Stop why, s1, t1)
  end.

Notation "x <- m ;; k" := (bind m (fun x => k))
  (at level 61, m at next level, right associativity).
Notation "m ;;; k" := (bind m (fun _ => k))
  (at level 61, right associativity).

Definition halt {A} (why : stop) : M A := fun s => (Stop why, s, []).

(** [defer d] around a function body: [d] runs when the body returns or
    panics, and does not run while the body has not come back. *)
Definition defer {A} (d : M unit) (body : M A) : M A := fun s =>
  match body s with
  | (Stop Blocked, s1, t1) => (Stop Blocked, s1, t1)
  | (Stop NoFuel, s1, t1) => (Stop NoFuel, s1, t1)
  | (o, s1, t1) =>
      let '(o2, s2, t2) := d s1 in
      (match o2 with Ret _ => o | Stop why => Stop why end, s2, t1 ++ t2)
  end.

Section Program.

Variable env : Env.

(** *** Primitive actions *)

Definition log (l : logline) : M unit := fun s => (Ret tt, s, [EvLog l]).

Definition WriteMessage (messageType : Z) (data : bytes) : M (option error) :=
  fun s =>
    let r := write_res env (writes s) in
    (Ret r,
     {| inq := inq s; writes := S (writes s); polls := polls s;
        ticks := ticks s; cancelled := cancelled s |},
     [EvWrite messageType data r]).

Definition Close : M (option error) := fun s =>
  (Ret (close_res env), s, [EvClose (close_res env)]).

Definition cancel : M unit := fun s =>
  (Ret tt,
   {| inq := inq s; writes := writes s; polls := polls s;
      ticks := ticks s; cancelled := true |},
   [EvCancel]).

(** [select { case <-ctx.Done(): ...; default: }]: the derived context is
    done once [cancel] was called or the parent is done. *)
Definition ctx_done : M bool := fun s =>
  (Ret (cancelled s || parent_done env (polls s)),
   {| inq := inq s; writes := writes s; polls := S (polls s);
      ticks := ticks s; cancelled := cancelled s |},
   []).

Definition time_Now : M Z := fun s =>
  (Ret (wrap64 (mono env (ticks s))),
   {| inq := inq s; writes := writes s; polls := polls s;
      ticks := S (ticks s); cancelled := cancelled s |},
   []).

Definition time_Since (start : Z) : M Z :=
  now <- time_Now ;; ret (subMono now start).

(** [make([]byte, size)] panics on a negative length. *)
Definition make_bytes (size : Z) : M bytes :=
  if size <? 0 then halt Panicked else ret (repeat x00 (Z.to_nat size)).

(** *** The connection's read side

    [ReadMessage] as gorilla/websocket documents it: it takes frames from
    the connection until a text or binary frame arrives and returns that
    one; ping, pong and close frames met on the way are handed to the
    handlers set with [SetPingHandler], [SetPongHandler] and
    [SetCloseHandler], from within the read; a handler's error ends the
    read with that error, and a close frame ends it with a [CloseError]
    after its handler ran.  With no frame left the read does not return. *)

Record Handlers : Type := {
  handlePing : bytes -> M (option error);
  handlePong : bytes -> M (option error);
  handleClose : Z -> bytes -> M (option error)
}.

Definition recv (w : wire) (rest : list wire) : M unit := fun s =>
  (Ret tt,
   {| inq := rest; writes := writes s; polls := polls s;
      ticks := ticks s; cancelled := cancelled s |},
   [EvRecv w]).

Fixpoint advance (h : Handlers) (q : list wire) : M (Z * bytes * option error) :=
  match q with
  | [] => halt Blocked
  | w :: q' =>
      recv w q' ;;;
      match w with
      | WText p => ret (TextMessage, p, None)
      | WBinary p => ret (BinaryMessage, p, None)
      | WPing p =>
          err <- handlePing h p ;;
          match err with
          | Some e => ret (noFrame, [], Some e)
          | None => advance h q'
          end
      | WPong p =>
          err <- handlePong h p ;;
          match err with
          | Some e => ret (noFrame, [], Some e)
          | None => advance h q'
          end
      | WClose code text =>
          err <- handleClose h code text ;;
          match err with
          | Some e => ret (noFrame, [], Some e)
          | None => ret (noFrame, [], Some (CloseError code text))
          end
      | WFail e => ret (noFrame, [], Some e)
      end
  end.

Definition ReadMessage (h : Handlers) : M (Z * bytes * option error) :=
  fun s => advance h (inq s) s.

(** *** The handlers both routines install (lines 79-94 and 139-154) *)

Definition pingHandler (appData : bytes) : M (option error) :=
  log (LogPing appData) ;;;
  WriteMessage PongMessage appData.

Definition pongHandler (appData : bytes) : M (option error) :=
  log (LogPong appData) ;;;
  ret None.

Definition closeHandler (code : Z) (text : bytes) : M (option error) :=
  log (LogClose code text) ;;;
  cancel ;;;
  ret None.

Definition handlers : Handlers :=
  {| handlePing := pingHandler;
     handlePong := pongHandler;
     handleClose := closeHandler |}.

(** The deferred function of lines 72-76 and 132-136. *)
Definition close_conn : M unit :=
  err <- Close ;;
  match err with
  | Some e => log (LogErr (Errorf "couldn't close" e))
  | None => ret tt
  end.

(** *** Server *)

Definition NewServer : Server :=
  {| upgrader := {| CheckOrigin := fun _ => true |} |}.

(** [Upgrader.Upgrade], reduced to its outcome: it fails when the origin
    predicate rejects the request, or when the handshake fails for another
    reason. *)
Definition Upgrade (u : Upgrader) (r : Request) : M (option error) :=
  if CheckOrigin u r
  then ret (match handshake env r with
            | Some reason => Some (ErrHandshake reason)
            | None => None
            end)
  else ret (Some ErrOrigin).

(** The [for] loop of lines 97-113. *)
Fixpoint echo_loop (fuel : nat) : M unit :=
  match fuel with
  | O => halt NoFuel
  | S fuel' =>
      done <- ctx_done ;;
      if done then ret tt
      else
        r <- ReadMessage handlers ;;
        let '(mt, message, err) := r in
        match err with
        | Some e => log (LogErr (Errorf "couldn't read" e))
        | None =>
            log (LogRecv (Z.of_nat (List.length message))) ;;;
            err <- WriteMessage mt message ;;
            match err with
            | Some e => log (LogErr (Errorf "couldn't write" e))
            | None => echo_loop fuel'
            end
        end
  end.

Definition ServeHTTP (srv : Server) (r : Request) : M unit :=
  defer cancel
    (err <- Upgrade (upgrader srv) r ;;
     match err with
     | Some e => log (LogErr (Errorf "couldn't upgrade" e))
     | None =>
         defer close_conn
           (fun s => echo_loop (S (List.length (inq s))) s)
     end).

(** *** Client *)

(** How the [for] loop of lines 158-176 is left: by a [return] inside it,
    or by falling out of it ([break], or the loop condition). *)
Inductive loop_exit : Type :=
| Returned (err : option error)
| Fell (elapseds : list Z).

Fixpoint ping_loop (k : nat) (size : Z) (elapseds : list Z) : M loop_exit :=
  match k with
  | O => ret (Fell elapseds)
  | S k' =>
      done <- ctx_done ;;
      if done then ret (Returned None)
      else
        start <- time_Now ;;
        buf <- make_bytes size ;;
        err <- WriteMessage BinaryMessage buf ;;
        match err with
        | Some e => ret (Returned (Some (Errorf "couldn't write" e)))
        | None =>
            r <- ReadMessage handlers ;;
            let '(_, _, err) := r in
            match err with
            | Some e =>
                log (LogErr (Errorf "couldn't read" e)) ;;;
                ret (Fell elapseds)
            | None =>
                elapsed <- time_Since start ;;
                log (LogSent size elapsed) ;;;
                ping_loop k' size (elapseds ++ [elapsed])
            end
        end
  end.

(** [sum += d] over the samples, in [time.Duration] arithmetic. *)
Definition sum_durations (elapseds : list Z) : Z :=
  fold_left (fun sum d => wrap64 (sum + d)) elapseds 0.

(** Lines 179-186. *)
Definition print_average (size : Z) (elapseds : list Z) : M unit :=
  if (0 <? Z.of_nat (List.length elapseds))
  then
    log LogAverage ;;;
    log (LogSent (wrap64 (size * Z.of_nat (List.length elapseds)))
                 (Z.quot (sum_durations elapseds) (Z.of_nat (List.length elapseds))))
  else ret tt.

Definition Ping (host : string) (n size : Z) (insecure : bool) : M (option error) :=
  defer cancel
    (match dial env host insecure with
     | Some e => ret (Some (Errorf "couldn't dial" e))
     | None =>
         defer close_conn
           (x <- ping_loop (Z.to_nat n) size [] ;;
            match x with
            | Returned err => ret err
            | Fell elapseds => print_average size elapseds ;;; ret None
            end)
     end).

End Program.

(** ** Reading traces *)

(** The frames written by a stretch of a run, in order. *)
Fixpoint writes_of (tr : list event) : list (Z * bytes) :=
  match tr with
  | [] => []
  | EvWrite mt p _ :: rest => (mt, p) :: writes_of rest
  | _ :: rest => writes_of rest
  end.

(** What happens before the next frame is taken from the connection. *)
Fixpoint until_recv (tr : list event) : list event :=
  match tr with
  | [] => []
  | EvRecv _ :: _ => []
  | ev :: rest => ev :: until_recv rest
  end.

(** Nothing is written before the next frame is taken. *)
Definition quiet (tr : list event) : Prop := writes_of (until_recv tr) = [].

Definition is_io (ev : event) : bool :=
  match ev with
  | EvRecv _ | EvWrite _ _ _ => true
  | _ => false
  end.

(** No frame is read or written at all. *)
Definition no_io (tr : list event) : Prop := Forall (fun ev => is_io ev = false) tr.

Definition is_close (ev : event) : bool :=
  match ev with EvClose _ => true | _ => false end.

Definition count_close (tr : list event) : nat := List.length (filter is_close tr).

(** Kind and payload of a data frame. *)
Definition data_of (w : wire) : option (Z * bytes) :=
  match w with
  | WText p => Some (TextMessage, p)
  | WBinary p => Some (BinaryMessage, p)
  | _ => None
  end.

Definition is_data_recv (ev : event) : bool :=
  match ev with
  | EvRecv (WText _) | EvRecv (WBinary _) => true
  | _ => false
  end.

(** Completed round trips of a client run: replies read successfully. *)
Definition count_data (tr : list event) : nat := List.length (filter is_data_recv tr).

Definition is_binary_write (ev : event) : bool :=
  match ev with EvWrite mt _ _ => mt =? BinaryMessage | _ => false end.

Definition count_binary_writes (tr : list event) : nat :=
  List.length (filter is_binary_write tr).

(** The durations of the [sent ... bytes in ...] lines. *)
Fixpoint samples (tr : list event) : list Z :=
  match tr with
  | [] => []
  | EvLog (LogSent _ d) :: rest => d :: samples rest
  | _ :: rest => samples rest
  end.

Definition is_average (ev : event) : bool :=
  match ev with EvLog LogAverage => true | _ => false end.

Definition no_summary (tr : list event) : Prop :=
  Forall (fun ev => is_average ev = false) tr.

(** A property of an event and of what follows it, at every position. *)
Fixpoint always (Q : event -> list event -> Prop) (tr : list event) : Prop :=
  match tr with
  | [] => True
  | ev :: post => Q ev post /\ always Q post
  end.

(** *** What follows each event

    [next] states, for every event of a trace, what the rest of the trace
    must look like.  The answers to control frames are those of the
    handlers and are the same for both routines; what follows a data
    frame [Qd], a failed read [Qe] and a write [Qw] is left to the
    routine that owns the loop. *)
Definition next
    (Qd : Z -> bytes -> list event -> Prop)
    (Qe : error -> list event -> Prop)
    (Qw : Z -> bytes -> option error -> list event -> Prop)
    (ev : event) (post : list event) : Prop :=
  match ev with
  | EvRecv (WText p) => Qd TextMessage p post
  | EvRecv (WBinary p) => Qd BinaryMessage p post
  | EvRecv (WPing p) =>
      exists r post',
        post = EvLog (LogPing p) :: EvWrite PongMessage p r :: post' /\ quiet post'
  | EvRecv (WPong p) =>
      exists post', post = EvLog (LogPong p) :: post' /\ quiet post'
  | EvRecv (WClose code text) =>
      exists post',
        post = EvLog (LogClose code text) :: EvCancel :: post'
        /\ Qe (CloseError code text) post'
  | EvRecv (WFail e) => Qe e post
  | EvWrite mt p r => Qw mt p r post
  | _ => True
  end.

(** What the caller of [ReadMessage] owes, by the result it gets. *)
Definition read_cont
    (Qd : Z -> bytes -> list event -> Prop)
    (Qe : error -> list event -> Prop)
    (o : outcome (Z * bytes * option error)) (k : list event) : Prop :=
  match o with
  | Ret (mt, p, None) => Qd mt p k
  | Ret (_, _, Some e) => Qe e k
  | Stop _ => k = []
  end.

(** Round trips completed by a read: one if it returned a message. *)
Definition read_ok (o : outcome (Z * bytes * option error)) : nat :=
  match o with
  | Ret (_, _, None) => 1%nat
  | _ => 0%nat
  end.

(** *** The end of a run

    What the deferred calls leave in the trace: [conn.Close], the line
    for its error if it has one, and the deferred [cancel]. *)

Definition close_events (env : Env) : list event :=
  EvClose (close_res env) ::
  match close_res env with
  | Some e => [EvLog (LogErr (Errorf "couldn't close" e))]
  | None => []
  end.

Definition teardown (env : Env) : list event := close_events env ++ [EvCancel].
Arguments teardown : simpl never.

(** *** What the echo handler does after each event *)

Definition srv_Qd (mt : Z) (p : bytes) (post : list event) : Prop :=
  exists r post',
    post = EvLog (LogRecv (Z.of_nat (List.length p))) :: EvWrite mt p r :: post'
    /\ quiet post'.

Definition srv_Qe (env : Env) (e : error) (post : list event) : Prop :=
  post = EvLog (LogErr (Errorf "couldn't read" e)) :: teardown env.

Definition srv_Qw (env : Env)
    (mt : Z) (p : bytes) (r : option error) (post : list event) : Prop :=
  match r with
  | None => True
  | Some e =>
      if mt =? PongMessage then srv_Qe env e post
      else post = EvLog (LogErr (Errorf "couldn't write" e)) :: teardown env
  end.

Definition srv_next (env : Env) : event -> list event -> Prop :=
  next srv_Qd (srv_Qe env) (srv_Qw env).

(** What the loop leaves to the deferred calls. *)
Definition after_loop (env : Env) (o : outcome unit) : list event :=
  match o with
  | Ret _ => teardown env
  | Stop _ => []
  end.

(** *** What the probe client does after each event *)

(** The trace of [print_average]. *)
Definition summary (size : Z) (elapseds : list Z) : list event :=
  if 0 <? Z.of_nat (List.length elapseds)
  then [EvLog LogAverage;
        EvLog (LogSent (wrap64 (size * Z.of_nat (List.length elapseds)))
                       (Z.quot (sum_durations elapseds)
                               (Z.of_nat (List.length elapseds))))]
  else [].

(** What the function does once the loop is left. *)
Definition after_ping (env : Env) (size : Z) (x : outcome loop_exit) : list event :=
  match x with
  | Ret (Returned _) => teardown env
  | Ret (Fell elapseds) => summary size elapseds ++ teardown env
  | Stop Panicked => teardown env
  | Stop _ => []
  end.

Definition ping_result (x : outcome loop_exit) : outcome (option error) :=
  match x with
  | Ret (Returned err) => Ret err
  | Ret (Fell _) => Ret None
  | Stop why => Stop why
  end.

Definition cli_Qd (mt : Z) (p : bytes) (post : list event) : Prop := True.

Definition cli_Qe (env : Env) (out : outcome (option error)) (size : Z)
    (e : error) (post : list event) : Prop :=
  out = Ret None
  /\ exists elapseds,
       post = EvLog (LogErr (Errorf "couldn't read" e))
              :: summary size elapseds ++ teardown env.

Definition cli_Qw (env : Env) (out : outcome (option error)) (size : Z)
    (mt : Z) (p : bytes) (r : option error) (post : list event) : Prop :=
  if mt =? PongMessage
  then match r with
       | Some e => cli_Qe env out size e post
       | None => True
       end
  else mt = BinaryMessage /\ 0 <= size /\ p = repeat x00 (Z.to_nat size)
       /\ match r with
          | Some e =>
              out = Ret (Some (Errorf "couldn't write" e)) /\ post = teardown env
          | None => True
          end.

Definition cli_next (env : Env) (out : outcome (option error)) (size : Z)
  : event -> list event -> Prop :=
  next cli_Qd (cli_Qe env out size) (cli_Qw env out size).

(** The duration the clock yields for the [j]-th round trip of a loop
    entered at clock reading number [t0]. *)
Definition measured (env : Env) (t0 : nat) (j : nat) : Z :=
  subMono (wrap64 (mono env (S (t0 + 2 * j)))) (wrap64 (mono env (t0 + 2 * j))).

(** *** Reading a run *)

Definition result_of {A} (res : outcome A * St * list event) : outcome A :=
  fst (fst res).

Definition trace_of {A} (res : outcome A * St * list event) : list event :=
  snd res.

(** How a control frame taken from the connection at the head of [post]
    is answered: a ping by its log line and one pong with the same
    payload, a pong by its log line alone. *)
Definition control_answered (w : wire) (post : list event) : Prop :=
  match w with
  | WPing P =>
      exists res post',
        post = EvLog (LogPing P) :: EvWrite PongMessage P res :: post'
        /\ writes_of (until_recv post') = []
  | WPong P =>
      exists post',
        post = EvLog (LogPong P) :: post'
        /\ writes_of (until_recv post') = []
  | _ => True
  end.

(** A clock whose first [upto + 1] readings are non-negative [int64]
    values that never go back, as those of the monotonic clock of the Go
    runtime. *)
Definition monotone_clock (env : Env) (upto : nat) : Prop :=
  forall i j, (i <= j)%nat -> (j <= upto)%nat ->
    0 <= mono env i <= mono env j /\ mono env j <= maxDuration.

(** The specification's "cancellation mid-run" property, as it is worded:
    when the context is found done at the boundary check that follows [k]
    completed round trips, the run returns no error and reports the
    statistics of exactly the [k] samples (no summary when [k = 0]). *)
Definition cancellation_reports_statistics
    (env : Env) (host : string) (n size : Z) (insecure : bool)
    (inbound : list wire) (k : nat) : Prop :=
  let res := Ping env host n size insecure (init inbound) in
  dial env host insecure = None ->
  (k < Z.to_nat n)%nat ->
  count_data (trace_of res) = k ->
  parent_done env k = true ->
  result_of res = Ret None
  /\ match k with
     | O => no_summary (trace_of res)
     | S _ =>
         exists t post,
           trace_of res = t ++ summary size (samples t) ++ post
           /\ List.length (samples t) = k
     end.

(** *** Sample environments *)

(** Nothing fails, nobody cancels, the clock advances 10ns a reading. *)
Definition calm : Env :=
  {| handshake := fun _ => None;
     dial := fun _ _ => None;
     write_res := fun _ => None;
     close_res := None;
     parent_done := fun _ => false;
     mono := fun i => 10 * Z.of_nat i |}.

(** As [calm], with the parent context done from the second poll on. *)
Definition cancelled_after_one : Env :=
  {| handshake := fun _ => None;
     dial := fun _ _ => None;
     write_res := fun _ => None;
     close_res := None;
     parent_done := fun i => Nat.leb 1 i;
     mono := fun i => 10 * Z.of_nat i |}.

(** As [calm], with the second write and [Close] failing. *)
Definition failing : Env :=
  {| handshake := fun _ => None;
     dial := fun _ _ => None;
     write_res := fun i => if Nat.eqb i 1 then Some (ErrTransport 1) else None;
     close_res := Some (ErrTransport 2);
     parent_done := fun _ => false;
     mono := fun i => 10 * Z.of_nat i |}.

Definition get_root : Request :=
  {| Method := "GET"; URL := "/"; Header := [] |}.

(** *** Further readings of a run *)

(** The frames taken from the connection, in order. *)
Fixpoint received (tr : list event) : list wire :=
  match tr with
  | [] => []
  | EvRecv w :: rest => w :: received rest
  | _ :: rest => received rest
  end.

(** What the echo handler writes in answer to a frame. *)
Definition reply_of (w : wire) : list (Z * bytes) :=
  match w with
  | WText p => [(TextMessage, p)]
  | WBinary p => [(BinaryMessage, p)]
  | WPing p => [(PongMessage, p)]
  | _ => []
  end.

(** The echo the caller of [ReadMessage] still owes for its result. *)
Definition owed_echo (o : outcome (Z * bytes * option error)) : list (Z * bytes) :=
  match o with
  | Ret (mt, p, None) => [(mt, p)]
  | _ => []
  end.

(** Frames that make [ReadMessage] return an error. *)
Definition ends_read (w : wire) : bool :=
  match w with
  | WClose _ _ | WFail _ => true
  | _ => false
  end.

(** What follows a failed read of the client, given how its loop was
    left: the loop fell through with [elapseds], and the summary over them
    comes next. *)
Definition fell_Qe (env : Env) (x : outcome loop_exit) (size : Z)
    (e : error) (post : list event) : Prop :=
  exists elapseds,
    x = Ret (Fell elapseds)
    /\ post = EvLog (LogErr (Errorf "couldn't read" e))
              :: summary size elapseds ++ teardown env.

Definition fell_Qw (env : Env) (x : outcome loop_exit) (size : Z)
    (mt : Z) (p : bytes) (r : option error) (post : list event) : Prop :=
  match r with
  | Some e => if mt =? PongMessage then fell_Qe env x size e post else True
  | None => True
  end.

Definition fell_next (env : Env) (x : outcome loop_exit) (size : Z)
  : event -> list event -> Prop :=
  next cli_Qd (fell_Qe env x size) (fell_Qw env x size).

(** As [calm], with every handshake and every dial refused. *)
Definition refusing : Env :=
  {| handshake := fun _ => Some "bad handshake"%string;
     dial := fun _ _ => Some (ErrTransport 3);
     write_res := fun _ => None;
     close_res := None;
     parent_done := fun _ => false;
     mono := fun i => 10 * Z.of_nat i |}.

(** * Proofs *)

(** ** Traces *)

Lemma always_split Q (pre : list event) (ev : event) (post : list event) :
  always Q (pre ++ ev :: post) -> Q ev post.
Proof.
  induction pre as [|x pre IH]; simpl; intros H.
  - exact (proj1 H).
  - exact (IH (proj2 H)).
Qed.


Lemma no_io_quiet (tr : list event) : no_io tr -> quiet tr.
Proof.
  unfold quiet. induction 1 as [|ev tr Hev _ IH]; [reflexivity|].
  destruct ev; simpl in *; try discriminate; exact IH.
Qed.

Lemma writes_of_app (a b : list event) :
  writes_of (a ++ b) = writes_of a ++ writes_of b.
Proof.
  induction a as [|ev a IH]; [reflexivity|].
  destruct ev; simpl; rewrite IH; reflexivity.
Qed.

Lemma samples_app (a b : list event) : samples (a ++ b) = samples a ++ samples b.
Proof.
  induction a as [|ev a IH]; [reflexivity|].
  destruct ev as [| |l| |]; simpl; try exact IH.
  destruct l; simpl; rewrite ?IH; reflexivity.
Qed.

Lemma count_close_app (a b : list event) :
  count_close (a ++ b) = (count_close a + count_close b)%nat.
Proof. unfold count_close. rewrite filter_app, length_app. reflexivity. Qed.

Lemma count_data_app (a b : list event) :
  count_data (a ++ b) = (count_data a + count_data b)%nat.
Proof. unfold count_data. rewrite filter_app, length_app. reflexivity. Qed.

Lemma count_binary_writes_app (a b : list event) :
  count_binary_writes (a ++ b) = (count_binary_writes a + count_binary_writes b)%nat.
Proof. unfold count_binary_writes. rewrite filter_app, length_app. reflexivity. Qed.

Lemma count_data_cons (ev : event) (l : list event) :
  count_data (ev :: l) = ((if is_data_recv ev then 1 else 0) + count_data l)%nat.
Proof. unfold count_data. simpl. destruct (is_data_recv ev); reflexivity. Qed.

Lemma count_binary_writes_cons (ev : event) (l : list event) :
  count_binary_writes (ev :: l)
  = ((if is_binary_write ev then 1 else 0) + count_binary_writes l)%nat.
Proof.
  unfold count_binary_writes. simpl. destruct (is_binary_write ev); reflexivity.
Qed.

Lemma count_close_cons (ev : event) (l : list event) :
  count_close (ev :: l) = ((if is_close ev then 1 else 0) + count_close l)%nat.
Proof. unfold count_close. simpl. destruct (is_close ev); reflexivity. Qed.

Lemma count_data_no_io (tr : list event) : no_io tr -> count_data tr = 0%nat.
Proof.
  induction 1 as [|ev tr Hev _ IH]; [reflexivity|].
  rewrite count_data_cons, IH. destruct ev as [w| | | |]; try reflexivity.
  discriminate.
Qed.

Lemma count_binary_writes_no_io (tr : list event) :
  no_io tr -> count_binary_writes tr = 0%nat.
Proof.
  induction 1 as [|ev tr Hev _ IH]; [reflexivity|].
  rewrite count_binary_writes_cons, IH. destruct ev; try reflexivity.
  discriminate.
Qed.

Lemma measured_shift (env : Env) (t0 c : nat) :
  map (measured env t0) (seq 1 c) = map (measured env (S (S t0))) (seq 0 c).
Proof.
  rewrite <- seq_shift, map_map. apply map_ext. intros j.
  unfold measured.
  replace (t0 + 2 * S j)%nat with (S (S t0) + 2 * j)%nat by lia.
  reflexivity.
Qed.

Lemma measured_seq (env : Env) (t0 c : nat) :
  map (measured env t0) (seq 0 (S c))
  = subMono (wrap64 (mono env (S t0))) (wrap64 (mono env t0))
    :: map (measured env (S (S t0))) (seq 0 c).
Proof.
  cbn [seq map]. rewrite measured_shift. unfold measured at 1.
  rewrite Nat.mul_0_r, Nat.add_0_r. reflexivity.
Qed.

(** ** 64-bit arithmetic *)

Lemma wrap64_fits (z : Z) : fits64 z -> wrap64 z = z.
Proof.
  unfold fits64, minDuration, maxDuration, wrap64. intros H.
  rewrite Z.mod_small; lia.
Qed.

Lemma wrap64_add_l (a b : Z) : wrap64 (wrap64 a + b) = wrap64 (a + b).
Proof.
  unfold wrap64. f_equal.
  replace (((a + 2 ^ 63) mod 2 ^ 64 - 2 ^ 63) + b + 2 ^ 63)
    with ((a + 2 ^ 63) mod 2 ^ 64 + b) by lia.
  replace (a + b + 2 ^ 63) with ((a + 2 ^ 63) + b) by lia.
  rewrite Zplus_mod_idemp_l. reflexivity.
Qed.

Lemma sum_durations_from (ds : list Z) (acc : Z) :
  fold_left (fun sum d => wrap64 (sum + d)) ds (wrap64 acc)
  = wrap64 (acc + fold_right Z.add 0 ds).
Proof.
  revert acc. induction ds as [|d ds IH]; intros acc; simpl.
  - rewrite Z.add_0_r. reflexivity.
  - rewrite wrap64_add_l, IH. f_equal. lia.
Qed.

Lemma sum_durations_wrap (ds : list Z) :
  sum_durations ds = wrap64 (fold_right Z.add 0 ds).
Proof.
  unfold sum_durations.
  change 0 with (wrap64 0) at 1. rewrite sum_durations_from. reflexivity.
Qed.

(** ** One [ReadMessage] *)

Section Obligations.

Variable env : Env.
Variable Qd : Z -> bytes -> list event -> Prop.
Variable Qe : error -> list event -> Prop.
Variable Qw : Z -> bytes -> option error -> list event -> Prop.

Hypothesis Qe_quiet : forall e k, Qe e k -> quiet k.
Hypothesis Qw_pong_ok : forall p k, Qw PongMessage p None k.
Hypothesis Qw_pong_err : forall p e k, Qe e k -> Qw PongMessage p (Some e) k.

Lemma advance_always (q : list wire) :
  forall s o s' t k,
    advance (handlers env) q s = (o, s', t) ->
    read_cont Qd Qe o k ->
    always (next Qd Qe Qw) k ->
    always (next Qd Qe Qw) (t ++ k) /\ quiet (t ++ k).
Proof.
  induction q as [|w q IH]; intros s o s' t k H Hk Hal.
  - inversion H; subst. simpl in *. subst. split; [exact I|reflexivity].
  - destruct w as [p|p|p|p|code text|e]; simpl in H; unfold bind in H; simpl in H.
    + inversion H; subst. simpl. repeat split; auto.
    + inversion H; subst. simpl. repeat split; auto.
    + destruct (write_res env (writes s)) as [e|] eqn:Ew.
      * inversion H; subst. simpl in *.
        split; [split|reflexivity].
        -- exists (Some e), k. eauto.
        -- repeat split; eauto.
      * match type of H with
        | context [advance _ q ?s1] =>
            destruct (advance (handlers env) q s1) as [[o1 s1'] t1] eqn:E1
        end.
        inversion H; subst.
        destruct (IH _ _ _ _ k E1 Hk Hal) as [Ha Hq]. simpl.
        split; [split|reflexivity];
          [exists None, (t1 ++ k); auto | repeat split; auto].
    + match type of H with
      | context [advance _ q ?s1] =>
          destruct (advance (handlers env) q s1) as [[o1 s1'] t1] eqn:E1
      end.
      inversion H; subst.
      destruct (IH _ _ _ _ k E1 Hk Hal) as [Ha Hq]. simpl.
      split; [split|reflexivity];
        [exists (t1 ++ k); auto | repeat split; auto].
    + inversion H; subst. simpl in *.
      split; [split|reflexivity].
      * exists k. auto.
      * repeat split; auto.
    + inversion H; subst. simpl in *. repeat split; auto.
Qed.

End Obligations.

Section ReadFacts.

Variable env : Env.

Lemma advance_facts (q : list wire) :
  forall s o s' t,
    advance (handlers env) q s = (o, s', t) ->
    polls s' = polls s /\ ticks s' = ticks s
    /\ count_data t = read_ok o
    /\ count_binary_writes t = 0%nat
    /\ samples t = []
    /\ count_close t = 0%nat
    /\ no_summary t
    /\ match o with
       | Ret (mt, _, err) =>
           (List.length (inq s') < List.length q)%nat
           /\ (err = None -> mt = TextMessage \/ mt = BinaryMessage)
       | Stop why => why = Blocked
       end.
Proof.
  induction q as [|w q IH]; intros s o s' t H.
  - inversion H; subst. simpl. repeat split; constructor.
  - destruct w as [p|p|p|p|code text|e]; simpl in H; unfold bind in H; simpl in H.
    + inversion H; subst. simpl.
      repeat split; auto; repeat constructor.
    + inversion H; subst. simpl.
      repeat split; auto; repeat constructor.
    + destruct (write_res env (writes s)) as [e|] eqn:Ew.
      * inversion H; subst. simpl.
        repeat split; auto; try discriminate; repeat constructor.
      * match type of H with
        | context [advance _ q ?s1] =>
            destruct (advance (handlers env) q s1) as [[o1 s1'] t1] eqn:E1
        end.
        inversion H; subst.
        destruct (IH _ _ _ _ E1) as (Hp & Ht & Hd & Hb & Hs & Hc & Hn & Ho).
        simpl in *. repeat split; auto.
        -- repeat constructor; auto.
        -- destruct o as [[[mt m] err]|why]; [|exact Ho].
           destruct Ho as [Hl Hk]. split; [lia|exact Hk].
    + match type of H with
      | context [advance _ q ?s1] =>
          destruct (advance (handlers env) q s1) as [[o1 s1'] t1] eqn:E1
      end.
      inversion H; subst.
      destruct (IH _ _ _ _ E1) as (Hp & Ht & Hd & Hb & Hs & Hc & Hn & Ho).
      simpl in *. repeat split; auto.
      * repeat constructor; auto.
      * destruct o as [[[mt m] err]|why]; [|exact Ho].
        destruct Ho as [Hl Hk]. split; [lia|exact Hk].
    + inversion H; subst. simpl.
      repeat split; auto; try discriminate; repeat constructor.
    + inversion H; subst. simpl.
      repeat split; auto; try discriminate; repeat constructor.
Qed.

End ReadFacts.

(** ** The end of a run *)

Lemma count_close_teardown (env : Env) : count_close (teardown env) = 1%nat.
Proof. unfold teardown, close_events. destruct (close_res env); reflexivity. Qed.

Lemma no_io_teardown (env : Env) : no_io (teardown env).
Proof.
  unfold teardown, close_events, no_io.
  destruct (close_res env); repeat constructor.
Qed.

Lemma no_summary_teardown (env : Env) : no_summary (teardown env).
Proof.
  unfold teardown, close_events, no_summary.
  destruct (close_res env); repeat constructor.
Qed.

Lemma always_no_io Qd Qe Qw (tr : list event) :
  no_io tr -> always (next Qd Qe Qw) tr.
Proof.
  induction 1 as [|ev tr Hev _ IH]; [exact I|].
  destruct ev; simpl in *; try discriminate; auto.
Qed.

(** ** The echo handler *)

Section ServerProofs.

Variable env : Env.

Lemma srv_Qe_quiet (e : error) (k : list event) : srv_Qe env e k -> quiet k.
Proof.
  unfold srv_Qe. intros ->. apply no_io_quiet.
  constructor; [reflexivity|apply no_io_teardown].
Qed.

Lemma srv_always_teardown : always (srv_next env) (teardown env).
Proof. apply always_no_io, no_io_teardown. Qed.

Lemma echo_loop_always (fuel : nat) :
  forall s o s' t,
    echo_loop env fuel s = (o, s', t) ->
    (List.length (inq s) < fuel)%nat ->
    (o = Ret tt \/ o = Stop Blocked)
    /\ count_close t = 0%nat
    /\ always (srv_next env) (t ++ after_loop env o)
    /\ quiet (t ++ after_loop env o).
Proof.
  induction fuel as [|fuel IH]; intros s o s' t H Hf; [lia|].
  simpl in H. unfold bind in H. simpl in H.
  destruct (cancelled s || parent_done env (polls s)).
  { inversion H; subst. simpl.
    split; [auto|]. split; [reflexivity|].
    split; [apply srv_always_teardown|apply no_io_quiet, no_io_teardown]. }
  unfold ReadMessage in H. simpl in H.
  match type of H with
  | context [advance _ _ ?s1] =>
      destruct (advance (handlers env) (inq s) s1) as [[o1 s1'] t1] eqn:E1
  end.
  pose proof (advance_facts env _ _ _ _ _ E1) as (_ & _ & _ & _ & _ & Hc & _ & Ho).
  assert (Hadv : forall k, read_cont srv_Qd (srv_Qe env) o1 k -> always (srv_next env) k ->
                           always (srv_next env) (t1 ++ k) /\ quiet (t1 ++ k)).
  { intros k.
    exact (advance_always env srv_Qd (srv_Qe env) (srv_Qw env) srv_Qe_quiet
             (fun _ _ => I) (fun _ _ _ Hk => Hk) _ _ _ _ _ k E1). }
  destruct o1 as [[[mt message] [e|]]|why].
  - (* the read failed *)
    inversion H; subst. simpl. rewrite <- app_assoc. simpl.
    split; [auto|]. split.
    { rewrite count_close_app, Hc. reflexivity. }
    apply Hadv; [reflexivity|].
    simpl. split; [exact I|apply srv_always_teardown].
  - (* a message was read *)
    destruct Ho as [Hlen Hkind]. specialize (Hkind eq_refl).
    assert (Hmt : (mt =? PongMessage) = false).
    { destruct Hkind; subst; reflexivity. }
    simpl in H.
    destruct (write_res env (writes s1')) as [e|] eqn:Ew.
    + inversion H; subst. simpl. rewrite <- app_assoc. simpl.
      split; [auto|]. split.
      { rewrite count_close_app, Hc. reflexivity. }
      apply Hadv.
      * exists (Some e), (EvLog (LogErr (Errorf "couldn't write" e)) :: teardown env).
        split; [reflexivity|].
        apply no_io_quiet. constructor; [reflexivity|apply no_io_teardown].
      * simpl. rewrite Hmt.
        split; [exact I|]. split; [reflexivity|].
        split; [exact I|apply srv_always_teardown].
    + match type of H with
      | context [echo_loop _ _ ?s2] =>
          destruct (echo_loop env fuel s2) as [[o2 s2'] t2] eqn:E2
      end.
      inversion H; subst.
      apply IH in E2; [|simpl; lia].
      destruct E2 as (Hout & Hc2 & Hal & Hq).
      split; [exact Hout|]. split.
      { rewrite count_close_app, Hc. simpl. exact Hc2. }
      rewrite <- app_assoc. simpl.
      apply Hadv.
      * exists None, (t2 ++ after_loop env o). auto.
      * simpl. auto.
  - (* the read is still waiting *)
    subst why. inversion H; subst. simpl. rewrite app_nil_r.
    split; [auto|]. split; [exact Hc|].
    specialize (Hadv [] eq_refl I). rewrite app_nil_r in Hadv. exact Hadv.
Qed.

(** The whole handler: a failed upgrade leaves one log line; otherwise
    the trace is that of the loop, followed by the deferred calls once the
    loop is left. *)
Lemma ServeHTTP_run (r : Request) (s : St) :
  forall o s' tr,
    ServeHTTP env NewServer r s = (o, s', tr) ->
    match handshake env r with
    | Some reason =>
        o = Ret tt
        /\ tr = [EvLog (LogErr (Errorf "couldn't upgrade" (ErrHandshake reason)));
                 EvCancel]
    | None =>
        exists t,
          tr = t ++ after_loop env o
          /\ count_close t = 0%nat
          /\ (o = Ret tt \/ o = Stop Blocked)
          /\ always (srv_next env) tr
    end.
Proof.
  intros o s' tr H.
  unfold ServeHTTP, defer, bind, Upgrade in H. cbn -[echo_loop] in H.
  destruct (handshake env r) as [reason|].
  - cbn in H. inversion H; subst. auto.
  - cbn -[echo_loop] in H.
    destruct (echo_loop env (S (List.length (inq s))) s) as [[o1 s1] t1] eqn:E.
    apply echo_loop_always in E; [|lia].
    destruct E as (Hout & Hc & Hal & _).
    exists t1.
    destruct Hout; subst o1; cbn in H, Hal.
    + assert (Htr : o = Ret tt /\ tr = t1 ++ teardown env).
      { unfold teardown, close_events.
        destruct (close_res env) as [e|]; cbn in H; inversion H; subst;
          rewrite <- app_assoc; auto. }
      destruct Htr; subst o tr. auto.
    + inversion H; subst. rewrite app_nil_r in *. auto.
Qed.

Lemma ServeHTTP_always (r : Request) (s : St) :
  forall o s' tr,
    ServeHTTP env NewServer r s = (o, s', tr) -> always (srv_next env) tr.
Proof.
  intros o s' tr H. apply ServeHTTP_run in H.
  destruct (handshake env r).
  - destruct H as [_ ->]. apply always_no_io. repeat constructor.
  - destruct H as (t & _ & _ & _ & Hal). exact Hal.
Qed.

End ServerProofs.

(** ** The probe client *)

Section ClientProofs.

Variable env : Env.

Lemma no_io_summary (size : Z) (els : list Z) : no_io (summary size els).
Proof. unfold summary. destruct (0 <? _); repeat constructor. Qed.

Lemma no_io_after_read (size : Z) (els : list Z) :
  no_io (summary size els ++ teardown env).
Proof. apply Forall_app. split; [apply no_io_summary|apply no_io_teardown]. Qed.

Lemma cli_Qe_quiet out size (e : error) (k : list event) :
  cli_Qe env out size e k -> quiet k.
Proof.
  intros [_ [els ->]]. apply no_io_quiet.
  constructor; [reflexivity|apply no_io_after_read].
Qed.

Lemma print_average_run (size : Z) (els : list Z) (s : St) :
  print_average size els s = (Ret tt, s, summary size els).
Proof.
  unfold print_average, summary. destruct (0 <? _); reflexivity.
Qed.

Lemma ping_loop_always out size (k : nat) :
  forall els s x s' t,
    ping_loop env k size els s = (x, s', t) ->
    ping_result x = out ->
    always (cli_next env out size) (t ++ after_ping env size x).
Proof.
  induction k as [|k IH]; intros els s x s' t H; cbn in H.
  - injection H as <- _ <-. intros _. cbn [app after_ping].
    apply always_no_io, no_io_after_read.
  - unfold bind in H. cbn in H.
    destruct (cancelled s || parent_done env (polls s)).
    { injection H as <- _ <-. intros _. cbn [app after_ping].
      apply always_no_io, no_io_teardown. }
    unfold make_bytes in H.
    destruct (size <? 0) eqn:Hsize.
    { injection H as <- _ <-. intros _. cbn [app after_ping].
      apply always_no_io, no_io_teardown. }
    apply Z.ltb_ge in Hsize.
    cbn in H.
    assert (Hw : forall kk, cli_Qw env out size BinaryMessage
                              (repeat x00 (Z.to_nat size)) None kk).
    { intros kk. unfold cli_Qw. cbn. auto. }
    destruct (write_res env (writes s)) as [e|] eqn:Ew.
    { injection H as <- _ <-. intros Hout. cbn [app after_ping ping_result] in *.
      split; [|apply always_no_io, no_io_teardown].
      unfold cli_Qw. cbn. auto. }
    unfold ReadMessage in H. cbn in H.
    match type of H with
    | context [advance _ _ ?s1] =>
        destruct (advance (handlers env) (inq s) s1) as [[o1 s1'] t1] eqn:E1
    end.
    pose proof (advance_facts env _ _ _ _ _ E1) as (_ & _ & _ & _ & _ & _ & _ & Ho).
    assert (Hadv : forall kk,
               read_cont cli_Qd (cli_Qe env out size) o1 kk ->
               always (cli_next env out size) kk ->
               always (cli_next env out size) (t1 ++ kk)).
    { intros kk Hc Hal.
      exact (proj1 (advance_always env cli_Qd (cli_Qe env out size)
                      (cli_Qw env out size) (cli_Qe_quiet out size)
                      (fun _ _ => I) (fun _ _ _ Hk => Hk) _ _ _ _ _ kk E1 Hc Hal)). }
    destruct o1 as [[[mt message] [e|]]|why].
    + (* the read failed *)
      injection H as <- _ <-. intros Hout. cbn [app after_ping ping_result] in *.
      split; [apply Hw|].
      rewrite <- app_assoc. cbn [app]. apply Hadv.
      * split; [auto|]. exists els. reflexivity.
      * split; [exact I|]. apply always_no_io, no_io_after_read.
    + (* the reply was read *)
      cbn in H.
      match type of H with
      | context [ping_loop _ k _ ?els2 ?s2] =>
          destruct (ping_loop env k size els2 s2) as [[x2 s2'] t2] eqn:E2
      end.
      injection H as <- _ <-. intros Hout.
      apply IH in E2; [|exact Hout].
      cbn [app]. split; [apply Hw|].
      rewrite <- app_assoc. cbn [app]. apply Hadv; [exact I|].
      split; [exact I|exact E2].
    + (* the read is still waiting *)
      subst why. injection H as <- _ <-. intros Hout. cbn [app after_ping].
      split; [apply Hw|].
      rewrite app_nil_r. rewrite <- (app_nil_r t1). apply Hadv; [reflexivity|exact I].
Qed.

(** Counting over the loop: how many replies were read, what was
    measured, and how the loop was left. *)
Lemma ping_loop_counts size (k : nat) :
  forall els s x s' t,
    ping_loop env k size els s = (x, s', t) ->
    (count_data t <= k)%nat
    /\ samples t = map (measured env (ticks s)) (seq 0 (count_data t))
    /\ no_summary t
    /\ count_close t = 0%nat
    /\ (count_data t = k ->
        x = Ret (Fell (els ++ samples t)) /\ count_binary_writes t = k)
    /\ ((count_data t < k)%nat ->
        parent_done env (polls s + count_data t) = true ->
        x = Ret (Returned None) /\ count_binary_writes t = count_data t).
Proof.
  induction k as [|k IH]; intros els s x s' t H; cbn in H.
  - injection H as <- _ <-. cbn. rewrite app_nil_r.
    repeat split; auto; try constructor; lia.
  - unfold bind in H. cbn in H.
    destruct (cancelled s || parent_done env (polls s)) eqn:Hdone.
    { injection H as <- _ <-. cbn.
      repeat split; auto; try constructor; try lia; discriminate. }
    apply orb_false_elim in Hdone. destruct Hdone as [_ Hpar].
    assert (Hnot : parent_done env (polls s + 0) = true -> False).
    { rewrite Nat.add_0_r, Hpar. discriminate. }
    unfold make_bytes in H.
    destruct (size <? 0) eqn:Hsize.
    { injection H as <- _ <-. cbn.
      repeat split; auto; try constructor; try lia; try discriminate;
        exfalso; auto. }
    cbn in H.
    destruct (write_res env (writes s)) as [e|] eqn:Ew.
    { injection H as <- _ <-. cbn.
      repeat split; auto; try constructor; try lia; try discriminate;
        try constructor; exfalso; auto. }
    unfold ReadMessage in H. cbn in H.
    match type of H with
    | context [advance _ _ ?s1] =>
        destruct (advance (handlers env) (inq s) s1) as [[o1 s1'] t1] eqn:E1
    end.
    pose proof (advance_facts env _ _ _ _ _ E1)
      as (Hp1 & Ht1 & Hd1 & Hb1 & Hs1 & Hc1 & Hn1 & Ho).
    cbn in Hp1, Ht1.
    destruct o1 as [[[mt message] [e|]]|why]; cbn in Hd1.
    + (* the read failed *)
      injection H as <- _ <-.
      rewrite count_data_cons, count_data_app, Hd1.
      rewrite count_close_cons, count_close_app, Hc1.
      rewrite count_binary_writes_cons, count_binary_writes_app, Hb1.
      cbn. rewrite samples_app, Hs1. cbn.
      repeat split; auto; try lia; try discriminate; try (exfalso; auto; fail).
      constructor; [reflexivity|]. apply Forall_app. split; [exact Hn1|].
      repeat constructor.
    + (* the reply was read *)
      cbn in H.
      match type of H with
      | context [ping_loop _ k _ ?els2 ?s2] =>
          destruct (ping_loop env k size els2 s2) as [[x2 s2'] t2] eqn:E2
      end.
      injection H as <- _ <-.
      apply IH in E2. cbn in E2. rewrite Ht1, Hp1 in E2. rewrite Ht1.
      destruct E2 as (Hle & Hsm & Hns & Hcl & Hfull & Hcut).
      rewrite count_data_cons, count_data_app, Hd1, count_data_cons.
      rewrite count_close_cons, count_close_app, Hc1, count_close_cons.
      rewrite count_binary_writes_cons, count_binary_writes_app, Hb1,
        count_binary_writes_cons.
      cbn [is_data_recv is_close is_binary_write Nat.add].
      change (BinaryMessage =? BinaryMessage) with true. cbn iota.
      assert (Hsamples :
        samples (EvWrite BinaryMessage (repeat x00 (Z.to_nat size)) None
                 :: t1 ++ EvLog (LogSent size
                     (subMono (wrap64 (mono env (S (ticks s))))
                              (wrap64 (mono env (ticks s)))))
                 :: t2)
        = map (measured env (ticks s)) (seq 0 (S (count_data t2)))).
      { cbn [samples]. rewrite samples_app, Hs1. cbn [app samples].
        rewrite measured_seq, <- Hsm. reflexivity. }
      rewrite Hsamples.
      split; [lia|]. split; [reflexivity|].
      split.
      { constructor; [reflexivity|]. apply Forall_app. split; [exact Hn1|].
        constructor; [reflexivity|exact Hns]. }
      split; [exact Hcl|].
      split.
      * intros Hk. assert (Hk2 : count_data t2 = k) by lia.
        destruct (Hfull Hk2) as [-> Hb2]. split; [|lia].
        rewrite <- app_assoc. cbn [app]. rewrite Hsm, measured_seq.
        reflexivity.
      * intros Hk Hpd. assert (Hk2 : (count_data t2 < k)%nat) by lia.
        replace (polls s + S (count_data t2))%nat
          with (S (polls s) + count_data t2)%nat in Hpd by lia.
        destruct (Hcut Hk2 Hpd) as [-> Hb2]. split; [reflexivity|lia].
    + (* the read is still waiting *)
      injection H as <- _ <-.
      rewrite count_data_cons, Hd1.
      rewrite count_close_cons, Hc1.
      rewrite count_binary_writes_cons, Hb1.
      cbn. rewrite Hs1.
      repeat split; auto; try lia; try discriminate; try (exfalso; auto; fail).
      constructor; [reflexivity|exact Hn1].
Qed.

(** The whole function: a failed dial returns at once; otherwise the
    trace is that of the loop, then what the function does once the loop
    is left. *)
Lemma Ping_run (host : string) (n size : Z) (insecure : bool) (s : St) :
  forall o s' tr,
    Ping env host n size insecure s = (o, s', tr) ->
    match dial env host insecure with
    | Some e => o = Ret (Some (Errorf "couldn't dial" e)) /\ tr = [EvCancel]
    | None =>
        exists x sx t,
          ping_loop env (Z.to_nat n) size [] s = (x, sx, t)
          /\ o = ping_result x
          /\ tr = t ++ after_ping env size x
    end.
Proof.
  intros o s' tr H.
  unfold Ping, defer, bind in H.
  destruct (dial env host insecure) as [e|].
  - cbn in H. injection H as <- _ <-. auto.
  - destruct (ping_loop env (Z.to_nat n) size [] s) as [[x sx] t] eqn:E.
    exists x, sx, t. split; [reflexivity|].
    unfold close_conn, bind, Close, log, cancel, ret in H.
    destruct x as [[err|els]|[| |]]; cbn [after_ping ping_result];
      try rewrite print_average_run in H;
      unfold teardown, close_events;
      destruct (close_res env) as [e|]; cbn in H;
      injection H as <- _ <-;
      rewrite <- ?app_assoc, ?app_nil_r; auto.
Qed.

Lemma no_io_after_ping (size : Z) (x : outcome loop_exit) :
  no_io (after_ping env size x).
Proof.
  destruct x as [[err|els]|[| |]]; cbn [after_ping];
    auto using no_io_teardown, no_io_after_read; constructor.
Qed.

Lemma no_summary_app (a b : list event) :
  no_summary a -> no_summary b -> no_summary (a ++ b).
Proof. intros Ha Hb. apply Forall_app. split; assumption. Qed.

(** With a monotone clock the measured durations are plain differences
    and their sum is at most the time between the first and the last
    reading. *)
Lemma monotone_total (upto : nat) (Hmono : monotone_clock env upto) (c : nat) :
  forall t0,
    (t0 + 2 * c <= upto)%nat ->
    0 <= fold_right Z.add 0 (map (measured env t0) (seq 0 c))
      <= mono env (t0 + 2 * c) - mono env t0.
Proof.
  induction c as [|c IH]; intros t0 Hup.
  - cbn. rewrite Nat.add_0_r. lia.
  - rewrite measured_seq. cbn [fold_right].
    specialize (IH (S (S t0))).
    replace (S (S t0) + 2 * c)%nat with (t0 + 2 * S c)%nat in IH by lia.
    specialize (IH Hup).
    destruct (Hmono t0 (S t0)) as [[H0 H1] H2]; [lia|lia|].
    destruct (Hmono (S t0) (S (S t0))) as [[_ H3] H4]; [lia|lia|].
    assert (Hd : subMono (wrap64 (mono env (S t0))) (wrap64 (mono env t0))
                 = mono env (S t0) - mono env t0).
    { unfold maxDuration in *.
      rewrite !wrap64_fits by (unfold fits64, minDuration, maxDuration; lia).
      unfold subMono.
      rewrite wrap64_fits by (unfold fits64, minDuration, maxDuration; lia).
      destruct (mono env (S t0) - mono env t0 <? 0) eqn:E1;
        [apply Z.ltb_lt in E1; lia|].
      cbn [andb].
      destruct (mono env (S t0) <? mono env t0) eqn:E2;
        [apply Z.ltb_lt in E2; lia|].
      rewrite andb_false_r. reflexivity. }
    rewrite Hd. lia.
Qed.

Lemma monotone_total_fits (c : nat) (Hmono : monotone_clock env (2 * c)) :
  fits64 (fold_right Z.add 0 (map (measured env 0) (seq 0 c))).
Proof.
  pose proof (monotone_total _ Hmono c 0%nat (Nat.le_refl _)) as H.
  destruct (Hmono 0%nat (0 + 2 * c)%nat) as [[H0 H1] H2]; [lia|lia|].
  unfold fits64, minDuration, maxDuration in *. lia.
Qed.

Lemma Ping_always (host : string) (n size : Z) (insecure : bool) (s : St) :
  forall o s' tr,
    Ping env host n size insecure s = (o, s', tr) ->
    always (cli_next env o size) tr.
Proof.
  intros o s' tr H. apply Ping_run in H.
  destruct (dial env host insecure).
  - destruct H as [_ ->]. apply always_no_io. repeat constructor.
  - destruct H as (x & sx & t & E & -> & ->).
    apply (ping_loop_always (ping_result x)) in E; [exact E|reflexivity].
Qed.

End ClientProofs.

(** * The properties of the specification *)

(** ** The echo handler *)

(** C1 (echo identity).  In any run of the handler, a text or binary
    frame with payload [B] taken from the connection is followed at once
    by the line logging its size and by one write of a frame of the same
    kind with the same payload [B], and nothing else is written before the
    next frame is taken from the connection. *)
Theorem echo_identity
    (env : Env) (r : Request) (inbound : list wire)
    (o : outcome unit) (s' : St) (tr pre post : list event)
    (w : wire) (mt : Z) (B : bytes) :
  ServeHTTP env NewServer r (init inbound) = (o, s', tr) ->
  tr = pre ++ EvRecv w :: post ->
  data_of w = Some (mt, B) ->
  exists res post',
    post = EvLog (LogRecv (Z.of_nat (List.length B))) :: EvWrite mt B res :: post'
    /\ writes_of (until_recv post') = [].
Proof.
  intros H -> Hw.
  apply ServeHTTP_always, always_split in H.
  destruct w; try discriminate; injection Hw as <- <-; exact H.
Qed.

Lemma echo_identity_witness :
  ServeHTTP calm NewServer get_root (init [WText [x61]; WClose 1000 []])
  = (Ret tt,
     {| inq := []; writes := 1; polls := 2; ticks := 0; cancelled := true |},
     [] ++ EvRecv (WText [x61])
        :: [EvLog (LogRecv 1); EvWrite TextMessage [x61] None;
            EvRecv (WClose 1000 []); EvLog (LogClose 1000 []); EvCancel;
            EvLog (LogErr (Errorf "couldn't read" (CloseError 1000 [])));
            EvClose None; EvCancel])
  /\ exists res post',
       [EvLog (LogRecv 1); EvWrite TextMessage [x61] None;
        EvRecv (WClose 1000 []); EvLog (LogClose 1000 []); EvCancel;
        EvLog (LogErr (Errorf "couldn't read" (CloseError 1000 [])));
        EvClose None; EvCancel]
       = EvLog (LogRecv (Z.of_nat (List.length [x61])))
         :: EvWrite TextMessage [x61] res :: post'
       /\ writes_of (until_recv post') = [].
Proof.
  split; [reflexivity|].
  eapply (echo_identity calm get_root [WText [x61]; WClose 1000 []]
           (Ret tt)
           {| inq := []; writes := 1; polls := 2; ticks := 0; cancelled := true |}
           _ [] _ (WText [x61]) TextMessage [x61]);
    reflexivity.
Defined.

(** C2 (ping/pong contract).  In the trace of any run of the handler or of
    the client, a ping frame with payload [P] taken from the connection is
    followed at once by its log line and by one pong frame carrying [P],
    and no other frame is written before the next frame is taken; a pong
    frame is followed by its log line and by no write. *)
Theorem ping_pong_contract
    (env : Env) (r : Request) (host : string) (n size : Z) (insecure : bool)
    (inbound : list wire) (tr pre post : list event) (w : wire) :
  tr = trace_of (ServeHTTP env NewServer r (init inbound))
  \/ tr = trace_of (Ping env host n size insecure (init inbound)) ->
  tr = pre ++ EvRecv w :: post ->
  control_answered w post.
Proof.
  intros [Hrun|Hrun] Htr.
  - destruct (ServeHTTP env NewServer r (init inbound)) as [[o s'] t] eqn:E.
    cbn in Hrun. subst t. rewrite Htr in E.
    apply ServeHTTP_always, always_split in E.
    destruct w; try exact I; exact E.
  - destruct (Ping env host n size insecure (init inbound)) as [[o s'] t] eqn:E.
    cbn in Hrun. subst t. rewrite Htr in E.
    apply Ping_always, always_split in E.
    destruct w; try exact I; exact E.
Qed.

Lemma ping_pong_contract_witness :
  (trace_of (ServeHTTP calm NewServer get_root
               (init [WPing [x01]; WPong [x02]; WClose 1000 []]))
   = [] ++ EvRecv (WPing [x01])
        :: [EvLog (LogPing [x01]); EvWrite PongMessage [x01] None;
            EvRecv (WPong [x02]); EvLog (LogPong [x02]);
            EvRecv (WClose 1000 []); EvLog (LogClose 1000 []); EvCancel;
            EvLog (LogErr (Errorf "couldn't read" (CloseError 1000 [])));
            EvClose None; EvCancel])
  /\ control_answered (WPing [x01])
       [EvLog (LogPing [x01]); EvWrite PongMessage [x01] None;
        EvRecv (WPong [x02]); EvLog (LogPong [x02]);
        EvRecv (WClose 1000 []); EvLog (LogClose 1000 []); EvCancel;
        EvLog (LogErr (Errorf "couldn't read" (CloseError 1000 [])));
        EvClose None; EvCancel].
Proof.
  split; [reflexivity|].
  eapply (ping_pong_contract calm get_root EmptyString 0 0 false
            [WPing [x01]; WPong [x02]; WClose 1000 []] _ [] _ (WPing [x01])).
  - left. reflexivity.
  - reflexivity.
Defined.

(** C6 (teardown).  When the upgrade succeeded, the handler either returns
    normally or is still waiting for a frame.  Whenever it returns, by
    whichever way the loop was left, [Close] was called exactly once, as
    the last thing before the deferred [cancel]; an error of [Close] is
    logged and the handler still returns normally.  While the handler
    waits, [Close] was not called. *)
Theorem close_exactly_once
    (env : Env) (r : Request) (inbound : list wire)
    (o : outcome unit) (s' : St) (tr : list event) :
  ServeHTTP env NewServer r (init inbound) = (o, s', tr) ->
  handshake env r = None ->
  (o = Ret tt \/ o = Stop Blocked)
  /\ (o = Ret tt ->
      count_close tr = 1%nat
      /\ exists t,
           count_close t = 0%nat
           /\ tr = t ++ match close_res env with
                        | Some e =>
                            [EvClose (Some e);
                             EvLog (LogErr (Errorf "couldn't close" e));
                             EvCancel]
                        | None => [EvClose None; EvCancel]
                        end)
  /\ (o = Stop Blocked -> count_close tr = 0%nat).
Proof.
  intros H Hup. apply ServeHTTP_run in H. rewrite Hup in H.
  destruct H as (t & -> & Hc & Hout & _).
  split; [exact Hout|]. split.
  - intros ->. cbn [after_loop]. split.
    + rewrite count_close_app, Hc, count_close_teardown. reflexivity.
    + exists t. split; [exact Hc|].
      unfold teardown, close_events. destruct (close_res env); reflexivity.
  - intros ->. cbn [after_loop]. rewrite app_nil_r. exact Hc.
Qed.

Lemma close_exactly_once_witness :
  ServeHTTP failing NewServer get_root (init [WBinary [x01]; WText [x02]])
  = (Ret tt,
     {| inq := []; writes := 2; polls := 2; ticks := 0; cancelled := true |},
     [EvRecv (WBinary [x01]); EvLog (LogRecv 1);
      EvWrite BinaryMessage [x01] None;
      EvRecv (WText [x02]); EvLog (LogRecv 1);
      EvWrite TextMessage [x02] (Some (ErrTransport 1));
      EvLog (LogErr (Errorf "couldn't write" (ErrTransport 1)));
      EvClose (Some (ErrTransport 2));
      EvLog (LogErr (Errorf "couldn't close" (ErrTransport 2)));
      EvCancel])
  /\ handshake failing get_root = None
  /\ count_close
       [EvRecv (WBinary [x01]); EvLog (LogRecv 1);
        EvWrite BinaryMessage [x01] None;
        EvRecv (WText [x02]); EvLog (LogRecv 1);
        EvWrite TextMessage [x02] (Some (ErrTransport 1));
        EvLog (LogErr (Errorf "couldn't write" (ErrTransport 1)));
        EvClose (Some (ErrTransport 2));
        EvLog (LogErr (Errorf "couldn't close" (ErrTransport 2)));
        EvCancel] = 1%nat.
Proof.
  split; [reflexivity|]. split; [reflexivity|].
  refine (proj1 (proj1 (proj2
    (close_exactly_once failing get_root [WBinary [x01]; WText [x02]]
       (Ret tt)
       {| inq := []; writes := 2; polls := 2; ticks := 0; cancelled := true |}
       _ eq_refl eq_refl)) eq_refl)).
Defined.

(** C7 (close ends the connection).  In any run of the handler, a close
    frame taken from the connection is followed by exactly this: the line
    logging code and reason, the handler's [cancel], the line for the
    failed read, [Close] and its possible error line, and the deferred
    [cancel].  So no frame is read or written after it, the handler
    returns, and [Close] was called exactly once in the whole run. *)
Theorem close_frame_ends_connection
    (env : Env) (r : Request) (inbound : list wire)
    (o : outcome unit) (s' : St) (tr pre post : list event)
    (code : Z) (text : bytes) :
  ServeHTTP env NewServer r (init inbound) = (o, s', tr) ->
  tr = pre ++ EvRecv (WClose code text) :: post ->
  post = EvLog (LogClose code text) :: EvCancel
         :: EvLog (LogErr (Errorf "couldn't read" (CloseError code text)))
         :: teardown env
  /\ no_io post
  /\ o = Ret tt
  /\ count_close tr = 1%nat.
Proof.
  intros H Htr.
  pose proof (ServeHTTP_always env _ _ _ _ _ H) as Hal.
  rewrite Htr in Hal. apply always_split in Hal.
  destruct Hal as (post' & -> & ->).
  split; [reflexivity|]. split.
  { do 3 (constructor; [reflexivity|]). apply no_io_teardown. }
  apply ServeHTTP_run in H.
  destruct (handshake env r) as [reason|].
  - destruct H as [_ H]. rewrite Htr in H.
    destruct pre as [|? [|? [|? ?]]]; discriminate.
  - destruct H as (t & Ht & Hc & Hout & _).
    assert (Hn : (1 <= count_close tr)%nat).
    { rewrite Htr.
      rewrite count_close_app, !count_close_cons, count_close_teardown. lia. }
    destruct Hout as [-> | ->]; cbn [after_loop] in Ht.
    + split; [reflexivity|].
      rewrite Ht, count_close_app, Hc, count_close_teardown. reflexivity.
    + rewrite app_nil_r in Ht. rewrite Ht, Hc in Hn. lia.
Qed.

Lemma close_frame_ends_connection_witness :
  ServeHTTP calm NewServer get_root (init [WClose 1000 []; WText [x61]])
  = (Ret tt,
     {| inq := [WText [x61]]; writes := 0; polls := 1; ticks := 0;
        cancelled := true |},
     [] ++ EvRecv (WClose 1000 [])
        :: [EvLog (LogClose 1000 []); EvCancel;
            EvLog (LogErr (Errorf "couldn't read" (CloseError 1000 [])));
            EvClose None; EvCancel])
  /\ no_io [EvLog (LogClose 1000 []); EvCancel;
            EvLog (LogErr (Errorf "couldn't read" (CloseError 1000 [])));
            EvClose None; EvCancel].
Proof.
  split; [reflexivity|].
  refine (proj1 (proj2
    (close_frame_ends_connection calm get_root [WClose 1000 []; WText [x61]]
       (Ret tt)
       {| inq := [WText [x61]]; writes := 0; polls := 1; ticks := 0;
          cancelled := true |}
       _ [] _ 1000 [] eq_refl eq_refl))).
Defined.

(** C10 (origin check).  The origin predicate of the server's upgrader
    holds of every request, and [Upgrade] with it never fails with the
    origin error. *)
Theorem origin_always_accepted (r : Request) :
  CheckOrigin (upgrader NewServer) r = true
  /\ forall env s,
       result_of (Upgrade env (upgrader NewServer) r s) <> Ret (Some ErrOrigin).
Proof.
  split; [reflexivity|].
  intros env s. unfold Upgrade. cbn.
  destruct (handshake env r); discriminate.
Qed.

(** ** The probe client *)

(** C3 (cancellation mid-run), as amended.  When the dial succeeded, [k]
    round trips were completed, fewer than the [n] asked for, and the
    parent context is done at the boundary check that follows them, [Ping]
    returns [nil]; it has sent exactly [k] probe frames, logged the [k]
    measured durations, and after them only the deferred calls run: no
    summary is emitted, whatever [k] is. *)
Theorem cancel_mid_run
    (env : Env) (host : string) (n size : Z) (insecure : bool)
    (inbound : list wire)
    (o : outcome (option error)) (s' : St) (tr : list event) (k : nat) :
  Ping env host n size insecure (init inbound) = (o, s', tr) ->
  dial env host insecure = None ->
  (k < Z.to_nat n)%nat ->
  count_data tr = k ->
  parent_done env k = true ->
  o = Ret None
  /\ no_summary tr
  /\ count_binary_writes tr = k
  /\ exists t,
       tr = t ++ teardown env
       /\ samples t = map (measured env 0) (seq 0 k).
Proof.
  intros H Hdial Hk Hc Hpd.
  apply Ping_run in H. rewrite Hdial in H.
  destruct H as (x & sx & t & E & -> & ->).
  rewrite count_data_app, (count_data_no_io _ (no_io_after_ping env size x)),
    Nat.add_0_r in Hc.
  apply ping_loop_counts in E. cbn in E.
  destruct E as (_ & Hsm & Hns & _ & _ & Hcut).
  rewrite Hc in *.
  destruct (Hcut Hk Hpd) as [-> Hb]. cbn [ping_result after_ping].
  split; [reflexivity|]. split.
  { apply no_summary_app; [exact Hns|apply no_summary_teardown]. }
  split.
  { rewrite count_binary_writes_app,
      (count_binary_writes_no_io _ (no_io_teardown env)). lia. }
  exists t. auto.
Qed.

Lemma cancel_mid_run_witness :
  Ping cancelled_after_one "ws://h" 2 0 false (init [WBinary []])
  = (Ret None,
     {| inq := []; writes := 1; polls := 2; ticks := 2; cancelled := true |},
     [EvWrite BinaryMessage [] None; EvRecv (WBinary []);
      EvLog (LogSent 0 10); EvClose None; EvCancel])
  /\ dial cancelled_after_one "ws://h" false = None
  /\ (1 < Z.to_nat 2)%nat
  /\ parent_done cancelled_after_one 1 = true
  /\ no_summary [EvWrite BinaryMessage [] None; EvRecv (WBinary []);
                 EvLog (LogSent 0 10); EvClose None; EvCancel].
Proof.
  split; [reflexivity|]. split; [reflexivity|].
  split; [vm_compute; lia|]. split; [reflexivity|].
  refine (proj1 (proj2
    (cancel_mid_run cancelled_after_one "ws://h" 2 0 false [WBinary []]
       (Ret None)
       {| inq := []; writes := 1; polls := 2; ticks := 2; cancelled := true |}
       _ 1%nat eq_refl eq_refl _ eq_refl eq_refl))).
  vm_compute. lia.
Defined.

(** C3, as worded, fails: with the parent context done at the second
    boundary check, a run asked for two round trips completes one, returns
    [nil], and emits no summary over its one sample. *)
Lemma cancel_mid_run_counterexample :
  ~ cancellation_reports_statistics
      cancelled_after_one "ws://h" 2 0 false [WBinary []] 1.
Proof.
  unfold cancellation_reports_statistics. intros H.
  destruct H as [_ (t & post & Ht & Hl)]; try reflexivity.
  { vm_compute. lia. }
  assert (Hin : In (EvLog LogAverage)
                   (trace_of (Ping cancelled_after_one "ws://h" 2 0 false
                                (init [WBinary []])))).
  { rewrite Ht. apply in_or_app. right. apply in_or_app. left.
    unfold summary. rewrite Hl. left. reflexivity. }
  cbn in Hin.
  repeat (destruct Hin as [Hin|Hin]; [discriminate|]).
  exact Hin.
Qed.

(** C4 (aggregate).  When all [n >= 1] round trips of a run completed, the
    run ends with the summary, computed from the [n] durations [ds]
    measured by the clock and logged one by one: the byte count is
    [size * n] and the mean is the sum of [ds] divided by [n], both in
    64-bit arithmetic.  They are the exact product and the exact quotient
    whenever these fit in 64 bits, which the sum does under any monotone
    clock. *)
Theorem aggregate_correct
    (env : Env) (host : string) (n size : Z) (insecure : bool)
    (inbound : list wire)
    (o : outcome (option error)) (s' : St) (tr : list event) :
  Ping env host n size insecure (init inbound) = (o, s', tr) ->
  0 < n ->
  count_data tr = Z.to_nat n ->
  let ds := map (measured env 0) (seq 0 (Z.to_nat n)) in
  let total := fold_right Z.add 0 ds in
  o = Ret None
  /\ exists t bytes_sent mean,
       tr = t ++ [EvLog LogAverage; EvLog (LogSent bytes_sent mean)]
              ++ teardown env
       /\ samples t = ds
       /\ no_summary t
       /\ bytes_sent = wrap64 (size * n)
       /\ mean = Z.quot (wrap64 total) n
       /\ (fits64 (size * n) -> bytes_sent = size * n)
       /\ (fits64 total -> mean = Z.quot total n)
       /\ (monotone_clock env (2 * Z.to_nat n) -> mean = Z.quot total n).
Proof.
  intros H Hn Hc ds total.
  apply Ping_run in H.
  destruct (dial env host insecure) as [e|].
  { destruct H as [_ ->]. cbn in Hc. lia. }
  destruct H as (x & sx & t & E & -> & ->).
  rewrite count_data_app, (count_data_no_io _ (no_io_after_ping env size x)),
    Nat.add_0_r in Hc.
  apply ping_loop_counts in E. cbn in E.
  destruct E as (_ & Hsm & Hns & _ & Hfull & _).
  rewrite Hc in Hsm. fold ds in Hsm.
  destruct (Hfull Hc) as [-> _]. cbn [ping_result after_ping app].
  split; [reflexivity|].
  assert (Hlen : Z.of_nat (List.length (samples t)) = n).
  { rewrite Hsm. unfold ds. rewrite length_map, length_seq. lia. }
  exists t, (wrap64 (size * n)), (Z.quot (wrap64 total) n).
  split.
  { unfold summary. rewrite Hlen.
    destruct (0 <? n) eqn:E0; [|apply Z.ltb_ge in E0; lia].
    rewrite sum_durations_wrap, Hsm. reflexivity. }
  split; [exact Hsm|]. split; [exact Hns|].
  split; [reflexivity|]. split; [reflexivity|].
  split; [intros Hf; apply wrap64_fits, Hf|].
  split; [intros Hf; rewrite (wrap64_fits _ Hf); reflexivity|].
  intros Hmono. unfold total, ds.
  rewrite (wrap64_fits _ (monotone_total_fits env (Z.to_nat n) Hmono)).
  reflexivity.
Qed.

Lemma aggregate_correct_witness :
  Ping calm "ws://h" 2 3 false (init [WBinary [x00; x00; x00]; WText []])
  = (Ret None,
     {| inq := []; writes := 2; polls := 2; ticks := 4; cancelled := true |},
     [EvWrite BinaryMessage [x00; x00; x00] None;
      EvRecv (WBinary [x00; x00; x00]); EvLog (LogSent 3 10);
      EvWrite BinaryMessage [x00; x00; x00] None;
      EvRecv (WText []); EvLog (LogSent 3 10);
      EvLog LogAverage; EvLog (LogSent 6 10); EvClose None; EvCancel])
  /\ 0 < 2
  /\ exists t bytes_sent mean,
       [EvWrite BinaryMessage [x00; x00; x00] None;
        EvRecv (WBinary [x00; x00; x00]); EvLog (LogSent 3 10);
        EvWrite BinaryMessage [x00; x00; x00] None;
        EvRecv (WText []); EvLog (LogSent 3 10);
        EvLog LogAverage; EvLog (LogSent 6 10); EvClose None; EvCancel]
       = t ++ [EvLog LogAverage; EvLog (LogSent bytes_sent mean)]
            ++ teardown calm
       /\ bytes_sent = 3 * 2
       /\ mean = Z.quot (10 + 10) 2.
Proof.
  split; [reflexivity|]. split; [lia|].
  pose proof (aggregate_correct calm "ws://h" 2 3 false
              [WBinary [x00; x00; x00]; WText []]
              (Ret None)
              {| inq := []; writes := 2; polls := 2; ticks := 4;
                 cancelled := true |}
              [EvWrite BinaryMessage [x00; x00; x00] None;
               EvRecv (WBinary [x00; x00; x00]); EvLog (LogSent 3 10);
               EvWrite BinaryMessage [x00; x00; x00] None;
               EvRecv (WText []); EvLog (LogSent 3 10);
               EvLog LogAverage; EvLog (LogSent 6 10); EvClose None; EvCancel]
              eq_refl eq_refl eq_refl) as H.
  cbv zeta in H.
  destruct H as (_ & t & b & m & Ht & _ & _ & _ & _ & Hb & _ & Hm).
  exists t, b, m. split; [exact Ht|]. split.
  - apply Hb. vm_compute. split; discriminate.
  - apply Hm. intros i j Hij Hj. unfold maxDuration. cbn [calm mono].
    change (2 * Z.to_nat 2)%nat with 4%nat in Hj. lia.
Defined.

(** C5 (asymmetric failures).  In any run of [Ping]: if the write of a
    probe frame fails with [e], [Ping] returns the error wrapping [e] and
    nothing happens after the write but the deferred calls.  If the read
    of a reply fails (the transport fails with [e], a close frame arrives,
    or the pong answering a ping cannot be written), the failure is
    logged, no frame is read or written any more, and [Ping] returns
    [nil]. *)
Theorem asymmetric_failures
    (env : Env) (host : string) (n size : Z) (insecure : bool)
    (inbound : list wire)
    (o : outcome (option error)) (s' : St) (tr : list event) :
  Ping env host n size insecure (init inbound) = (o, s', tr) ->
  (forall pre p e post,
      tr = pre ++ EvWrite BinaryMessage p (Some e) :: post ->
      o = Ret (Some (Errorf "couldn't write" e)) /\ post = teardown env)
  /\ (forall pre e post,
         tr = pre ++ EvRecv (WFail e) :: post ->
         o = Ret None
         /\ exists post',
              post = EvLog (LogErr (Errorf "couldn't read" e)) :: post'
              /\ no_io post')
  /\ (forall pre code text post,
         tr = pre ++ EvRecv (WClose code text) :: post ->
         o = Ret None
         /\ exists post',
              post = EvLog (LogClose code text) :: EvCancel
                     :: EvLog (LogErr (Errorf "couldn't read"
                                         (CloseError code text)))
                     :: post'
              /\ no_io post')
  /\ (forall pre p e post,
         tr = pre ++ EvWrite PongMessage p (Some e) :: post ->
         o = Ret None
         /\ exists post',
              post = EvLog (LogErr (Errorf "couldn't read" e)) :: post'
              /\ no_io post').
Proof.
  intros H. apply Ping_always in H.
  repeat split.
  - subst tr. apply always_split in H. cbn in H.
    destruct H as (_ & _ & _ & H). apply H.
  - subst tr. apply always_split in H. cbn in H.
    destruct H as (_ & _ & _ & H). apply H.
  - subst tr. apply always_split in H. apply H.
  - subst tr. apply always_split in H. destruct H as [_ [els ->]].
    eexists. split; [reflexivity|]. apply no_io_after_read.
  - subst tr. apply always_split in H.
    destruct H as (post' & -> & Ho & _). exact Ho.
  - subst tr. apply always_split in H.
    destruct H as (post' & -> & _ & els & ->).
    eexists. split; [reflexivity|]. apply no_io_after_read.
  - subst tr. apply always_split in H. apply H.
  - subst tr. apply always_split in H. destruct H as [_ [els ->]].
    eexists. split; [reflexivity|]. apply no_io_after_read.
Qed.

Lemma asymmetric_failures_witness :
  Ping failing "ws://h" 3 1 false (init [WBinary [x00]])
  = (Ret (Some (Errorf "couldn't write" (ErrTransport 1))),
     {| inq := []; writes := 2; polls := 2; ticks := 3; cancelled := true |},
     [EvWrite BinaryMessage [x00] None; EvRecv (WBinary [x00]);
      EvLog (LogSent 1 10)]
     ++ EvWrite BinaryMessage [x00] (Some (ErrTransport 1))
        :: [EvClose (Some (ErrTransport 2));
            EvLog (LogErr (Errorf "couldn't close" (ErrTransport 2)));
            EvCancel])
  /\ [EvClose (Some (ErrTransport 2));
      EvLog (LogErr (Errorf "couldn't close" (ErrTransport 2)));
      EvCancel] = teardown failing.
Proof.
  split; [reflexivity|].
  refine (proj2 (proj1
    (asymmetric_failures failing "ws://h" 3 1 false [WBinary [x00]]
       (Ret (Some (Errorf "couldn't write" (ErrTransport 1))))
       {| inq := []; writes := 2; polls := 2; ticks := 3; cancelled := true |}
       ([EvWrite BinaryMessage [x00] None; EvRecv (WBinary [x00]);
         EvLog (LogSent 1 10)]
        ++ EvWrite BinaryMessage [x00] (Some (ErrTransport 1))
           :: [EvClose (Some (ErrTransport 2));
               EvLog (LogErr (Errorf "couldn't close" (ErrTransport 2)));
               EvCancel])
       eq_refl)
    [EvWrite BinaryMessage [x00] None; EvRecv (WBinary [x00]);
     EvLog (LogSent 1 10)]
    [x00] (ErrTransport 1)
    [EvClose (Some (ErrTransport 2));
     EvLog (LogErr (Errorf "couldn't close" (ErrTransport 2)));
     EvCancel]
    eq_refl)).
Defined.

(** C8 (probe frames).  In any run of [Ping], every frame written other
    than a pong is a binary frame whose payload is [size] zero bytes; and
    when all [n] round trips completed, exactly [n] binary frames were
    written. *)
Theorem probe_frames
    (env : Env) (host : string) (n size : Z) (insecure : bool)
    (inbound : list wire)
    (o : outcome (option error)) (s' : St) (tr : list event) :
  Ping env host n size insecure (init inbound) = (o, s', tr) ->
  (forall pre mt p res post,
      tr = pre ++ EvWrite mt p res :: post ->
      mt <> PongMessage ->
      mt = BinaryMessage
      /\ p = repeat x00 (Z.to_nat size)
      /\ Z.of_nat (List.length p) = size)
  /\ (count_data tr = Z.to_nat n -> count_binary_writes tr = Z.to_nat n).
Proof.
  intros H. split.
  - intros pre mt p res post -> Hmt.
    apply Ping_always, always_split in H. cbn in H. unfold cli_Qw in H.
    destruct (mt =? PongMessage) eqn:E; [apply Z.eqb_eq in E; contradiction|].
    destruct H as (-> & Hsize & -> & _).
    rewrite repeat_length. repeat split. lia.
  - intros Hc. apply Ping_run in H.
    destruct (dial env host insecure) as [e|].
    { destruct H as [_ ->]. cbn in Hc. rewrite <- Hc. reflexivity. }
    destruct H as (x & sx & t & E & -> & ->).
    rewrite count_data_app, (count_data_no_io _ (no_io_after_ping env size x)),
      Nat.add_0_r in Hc.
    rewrite count_binary_writes_app,
      (count_binary_writes_no_io _ (no_io_after_ping env size x)), Nat.add_0_r.
    apply ping_loop_counts in E.
    destruct E as (_ & _ & _ & _ & Hfull & _).
    exact (proj2 (Hfull Hc)).
Qed.

Lemma probe_frames_witness :
  Ping calm "ws://h" 2 3 false (init [WBinary [x00; x00; x00]; WText []])
  = (Ret None,
     {| inq := []; writes := 2; polls := 2; ticks := 4; cancelled := true |},
     [EvWrite BinaryMessage [x00; x00; x00] None;
      EvRecv (WBinary [x00; x00; x00]); EvLog (LogSent 3 10);
      EvWrite BinaryMessage [x00; x00; x00] None;
      EvRecv (WText []); EvLog (LogSent 3 10);
      EvLog LogAverage; EvLog (LogSent 6 10); EvClose None; EvCancel])
  /\ count_binary_writes
       [EvWrite BinaryMessage [x00; x00; x00] None;
        EvRecv (WBinary [x00; x00; x00]); EvLog (LogSent 3 10);
        EvWrite BinaryMessage [x00; x00; x00] None;
        EvRecv (WText []); EvLog (LogSent 3 10);
        EvLog LogAverage; EvLog (LogSent 6 10); EvClose None; EvCancel]
     = Z.to_nat 2.
Proof.
  split; [reflexivity|].
  exact (proj2
    (probe_frames calm "ws://h" 2 3 false [WBinary [x00; x00; x00]; WText []]
       (Ret None)
       {| inq := []; writes := 2; polls := 2; ticks := 4; cancelled := true |}
       [EvWrite BinaryMessage [x00; x00; x00] None;
        EvRecv (WBinary [x00; x00; x00]); EvLog (LogSent 3 10);
        EvWrite BinaryMessage [x00; x00; x00] None;
        EvRecv (WText []); EvLog (LogSent 3 10);
        EvLog LogAverage; EvLog (LogSent 6 10); EvClose None; EvCancel]
       eq_refl) eq_refl).
Defined.

(** C9 (no iterations).  With [n <= 0] and a successful dial, [Ping]
    returns [nil] and its whole trace is that of the deferred calls: no
    frame is written, no duration is logged, no summary is emitted, and
    the connection is closed once. *)
Theorem no_iterations
    (env : Env) (host : string) (n size : Z) (insecure : bool)
    (inbound : list wire) :
  n <= 0 ->
  dial env host insecure = None ->
  exists s',
    Ping env host n size insecure (init inbound) = (Ret None, s', teardown env)
    /\ inq s' = inbound
    /\ writes_of (teardown env) = []
    /\ samples (teardown env) = []
    /\ no_summary (teardown env)
    /\ count_close (teardown env) = 1%nat.
Proof.
  intros Hn Hdial.
  unfold Ping. rewrite Hdial.
  replace (Z.to_nat n) with 0%nat by lia.
  unfold teardown, close_events, defer, bind, close_conn.
  destruct (close_res env) as [e|] eqn:Ec; cbn; rewrite Ec; cbn;
    eexists; repeat split; repeat constructor.
Qed.

Lemma no_iterations_witness :
  0 <= 0
  /\ dial calm "ws://h" false = None
  /\ exists s',
       Ping calm "ws://h" 0 16 false (init [WBinary []])
       = (Ret None, s', [EvClose None; EvCancel])
       /\ inq s' = [WBinary []].
Proof.
  split; [lia|]. split; [reflexivity|].
  destruct (no_iterations calm "ws://h" 0 16 false [WBinary []]
              (Z.le_refl 0) eq_refl)
    as (s' & Hrun & Hq & _).
  exists s'. split; [exact Hrun|exact Hq].
Defined.

(** * Further properties of the two routines *)

(** ** Helper facts *)

Lemma received_app (a b : list event) :
  received (a ++ b) = received a ++ received b.
Proof.
  induction a as [|ev a IH]; [reflexivity|].
  destruct ev; simpl; rewrite IH; reflexivity.
Qed.

Lemma writes_of_no_io (tr : list event) : no_io tr -> writes_of tr = [].
Proof.
  induction 1 as [|ev tr Hev _ IH]; [reflexivity|].
  destruct ev; simpl in *; try discriminate; exact IH.
Qed.

Lemma received_no_io (tr : list event) : no_io tr -> received tr = [].
Proof.
  induction 1 as [|ev tr Hev _ IH]; [reflexivity|].
  destruct ev; simpl in *; try discriminate; exact IH.
Qed.

Lemma existsb_ends_read (q : list wire) :
  Forall (fun w => ends_read w = false) q -> existsb ends_read q = false.
Proof.
  induction 1 as [|w q Hw _ IH]; [reflexivity|].
  simpl. rewrite Hw, IH. reflexivity.
Qed.

(** A trace with one summary line splits around it in one way. *)
Lemma only_average (a b pre post : list event) :
  no_summary a ->
  no_summary b ->
  a ++ EvLog LogAverage :: b = pre ++ EvLog LogAverage :: post ->
  pre = a /\ post = b.
Proof.
  revert pre. induction a as [|x a IH]; intros pre Ha Hb H.
  - destruct pre as [|y pre]; simpl in H.
    + injection H as <-. auto.
    + injection H as _ H. exfalso.
      unfold no_summary in Hb. rewrite Forall_forall in Hb.
      assert (Hin : In (EvLog LogAverage) b).
      { rewrite H. apply in_or_app. right. left. reflexivity. }
      specialize (Hb _ Hin). discriminate.
  - destruct pre as [|y pre]; simpl in H.
    + injection H as -> _. inversion Ha; subst. discriminate.
    + injection H as <- H. inversion Ha; subst.
      destruct (IH pre) as [-> ->]; auto.
Qed.

Section ReadIO.

Variable env : Env.

(** One read: what it wrote answers what it took, the echo of a returned
    message aside; a read that returns a message or waits has met neither
    a close frame nor a transport failure. *)
Lemma advance_io (q : list wire) :
  forall s o s' t,
    advance (handlers env) q s = (o, s', t) ->
    writes_of t ++ owed_echo o = flat_map reply_of (received t)
    /\ match o with
       | Ret (_, _, None) =>
           exists pre,
             q = pre ++ inq s' /\ Forall (fun w => ends_read w = false) pre
       | Ret (_, _, Some _) => True
       | Stop _ => Forall (fun w => ends_read w = false) q
       end.
Proof.
  induction q as [|w q IH]; intros s o s' t H.
  - injection H as <- _ <-. split; [reflexivity|constructor].
  - destruct w as [p|p|p|p|code text|e]; cbn in H; unfold bind in H; cbn in H.
    + injection H as <- <- <-. cbn. split; [reflexivity|].
      exists [WText p]. split; [reflexivity|repeat constructor].
    + injection H as <- <- <-. cbn. split; [reflexivity|].
      exists [WBinary p]. split; [reflexivity|repeat constructor].
    + destruct (write_res env (writes s)) as [e|] eqn:Ew.
      * injection H as <- _ <-. cbn. auto.
      * match type of H with
        | context [advance _ q ?s1] =>
            destruct (advance (handlers env) q s1) as [[o1 s1'] t1] eqn:E1
        end.
        injection H as <- <- <-.
        destruct (IH _ _ _ _ E1) as [Hw Hq]. cbn. rewrite Hw.
        split; [reflexivity|].
        destruct o1 as [[[mt m] [e|]]|why]; [exact I| |].
        -- destruct Hq as (pre & -> & Hpre).
           exists (WPing p :: pre). split; [reflexivity|].
           constructor; [reflexivity|exact Hpre].
        -- constructor; [reflexivity|exact Hq].
    + match type of H with
      | context [advance _ q ?s1] =>
          destruct (advance (handlers env) q s1) as [[o1 s1'] t1] eqn:E1
      end.
      injection H as <- <- <-.
      destruct (IH _ _ _ _ E1) as [Hw Hq]. cbn. rewrite Hw.
      split; [reflexivity|].
      destruct o1 as [[[mt m] [e|]]|why]; [exact I| |].
      * destruct Hq as (pre & -> & Hpre).
        exists (WPong p :: pre). split; [reflexivity|].
        constructor; [reflexivity|exact Hpre].
      * constructor; [reflexivity|exact Hq].
    + injection H as <- _ <-. cbn. auto.
    + injection H as <- _ <-. cbn. auto.
Qed.

End ReadIO.

Section ServerIO.

Variable env : Env.

(** The loop of the handler: every write answers a frame it took, in
    order; and it waits only when none of the frames it was given ends a
    read. *)
Lemma echo_loop_io (fuel : nat) :
  forall s o s' t,
    echo_loop env fuel s = (o, s', t) ->
    writes_of t = flat_map reply_of (received t)
    /\ (o = Stop Blocked -> Forall (fun w => ends_read w = false) (inq s)).
Proof.
  induction fuel as [|fuel IH]; intros s o s' t H; cbn in H.
  - injection H as <- _ <-. split; [reflexivity|discriminate].
  - unfold bind in H. cbn in H.
    destruct (cancelled s || parent_done env (polls s)).
    { injection H as <- _ <-. split; [reflexivity|discriminate]. }
    unfold ReadMessage in H. cbn in H.
    match type of H with
    | context [advance _ _ ?s1] =>
        destruct (advance (handlers env) (inq s) s1) as [[o1 s1'] t1] eqn:E1
    end.
    destruct (advance_io env _ _ _ _ _ E1) as [Hw Hq].
    destruct o1 as [[[mt message] [e|]]|why]; cbn [owed_echo] in Hw.
    + injection H as <- _ <-.
      rewrite writes_of_app, received_app, !app_nil_r in *.
      split; [exact Hw|discriminate].
    + cbn in H.
      destruct (write_res env (writes s1')) as [e|] eqn:Ew.
      * injection H as <- _ <-.
        rewrite writes_of_app, received_app. cbn.
        rewrite app_nil_r. split; [exact Hw|discriminate].
      * match type of H with
        | context [echo_loop _ _ ?s2] =>
            destruct (echo_loop env fuel s2) as [[o2 s2'] t2] eqn:E2
        end.
        injection H as <- _ <-.
        apply IH in E2. cbn in E2. destruct E2 as [Hw2 Hb2].
        rewrite writes_of_app, received_app, flat_map_app. cbn.
        rewrite <- Hw, <- Hw2, <- app_assoc. split; [reflexivity|].
        intros Hb. destruct Hq as (pre & -> & Hpre).
        apply Forall_app. split; [exact Hpre|exact (Hb2 Hb)].
    + injection H as <- _ <-. rewrite app_nil_r in Hw.
      split; [exact Hw|]. intros _. exact Hq.
Qed.

(** The handler after a successful upgrade is its loop, then the deferred
    calls if the loop was left. *)
Lemma ServeHTTP_loop (r : Request) (s : St) :
  forall o s' tr,
    ServeHTTP env NewServer r s = (o, s', tr) ->
    handshake env r = None ->
    exists s1 t,
      echo_loop env (S (List.length (inq s))) s = (o, s1, t)
      /\ tr = t ++ after_loop env o
      /\ inq s' = inq s1.
Proof.
  intros o s' tr H Hup.
  unfold ServeHTTP, defer, bind, Upgrade in H. cbn -[echo_loop] in H.
  rewrite Hup in H. cbn -[echo_loop] in H.
  destruct (echo_loop env (S (List.length (inq s))) s) as [[o1 s1] t1] eqn:E.
  pose proof (echo_loop_always env _ _ _ _ _ E (Nat.lt_succ_diag_r _))
    as (Hout & _).
  exists s1, t1.
  destruct Hout; subst o1; cbn in H.
  - unfold teardown, close_events. cbn [after_loop].
    destruct (close_res env) as [e|] eqn:Ec; cbn in H;
      injection H as <- <- <-; cbn [after_loop];
      unfold teardown, close_events; rewrite Ec, <- ?app_assoc; auto.
  - injection H as <- <- <-. rewrite app_nil_r. auto.
Qed.

(** A handler whose trace has a [Close] has returned. *)
Lemma ServeHTTP_closed_returns (r : Request) (s : St) :
  forall o s' tr,
    ServeHTTP env NewServer r s = (o, s', tr) ->
    (1 <= count_close tr)%nat ->
    o = Ret tt.
Proof.
  intros o s' tr H Hc. apply ServeHTTP_run in H.
  destruct (handshake env r).
  - apply H.
  - destruct H as (t & -> & Hct & [-> | ->] & _); [reflexivity|].
    cbn [after_loop] in Hc. rewrite app_nil_r in Hc. lia.
Qed.

End ServerIO.

Section ClientIO.

Variable env : Env.

(** The loop of the client: it sends at most [k] probes, never a second
    one before the reply to the first was read; when it falls through, its
    samples are those it logged; it stops short only waiting for a reply
    or, with a negative size, in a panic; and it waits only when none of
    the frames it was given ends a read. *)
Lemma ping_loop_shape size (k : nat) :
  forall els s x s' t,
    ping_loop env k size els s = (x, s', t) ->
    (count_binary_writes t <= k)%nat
    /\ (count_data t <= count_binary_writes t <= S (count_data t))%nat
    /\ (forall els', x = Ret (Fell els') -> els' = els ++ samples t)
    /\ (forall why, x = Stop why ->
          why = Blocked \/ (why = Panicked /\ size < 0))
    /\ (x = Stop Blocked -> Forall (fun w => ends_read w = false) (inq s)).
Proof.
  induction k as [|k IH]; intros els s x s' t H; cbn in H.
  - injection H as <- _ <-. cbn.
    repeat split; try lia; try discriminate.
    intros els' [= <-]. rewrite app_nil_r. reflexivity.
  - unfold bind in H. cbn in H.
    destruct (cancelled s || parent_done env (polls s)).
    { injection H as <- _ <-. cbn.
      repeat split; try lia; discriminate. }
    unfold make_bytes in H.
    destruct (size <? 0) eqn:Hsize.
    { injection H as <- _ <-. apply Z.ltb_lt in Hsize. cbn.
      repeat split; try lia; try discriminate.
      intros why [= <-]. right. split; [reflexivity|exact Hsize]. }
    cbn in H.
    destruct (write_res env (writes s)) as [e|] eqn:Ew.
    { injection H as <- _ <-. cbn.
      repeat split; try lia; discriminate. }
    unfold ReadMessage in H. cbn in H.
    match type of H with
    | context [advance _ _ ?s1] =>
        destruct (advance (handlers env) (inq s) s1) as [[o1 s1'] t1] eqn:E1
    end.
    pose proof (advance_facts env _ _ _ _ _ E1)
      as (_ & _ & Hd1 & Hb1 & Hs1 & _ & _ & Ho).
    destruct (advance_io env _ _ _ _ _ E1) as [_ Hq].
    destruct o1 as [[[mt message] [e|]]|why]; cbn in Hd1.
    + injection H as <- _ <-.
      rewrite count_data_cons, count_data_app, Hd1.
      rewrite count_binary_writes_cons, count_binary_writes_app, Hb1.
      cbn. rewrite samples_app, Hs1. cbn.
      repeat split; try lia; try discriminate.
      intros els' [= <-]. rewrite app_nil_r. reflexivity.
    + cbn in H.
      match type of H with
      | context [ping_loop _ k _ ?els2 ?s2] =>
          destruct (ping_loop env k size els2 s2) as [[x2 s2'] t2] eqn:E2
      end.
      injection H as <- _ <-.
      apply IH in E2. cbn in E2.
      destruct E2 as (Hle & Halt & Hfell & Hstop & Hblk).
      rewrite count_data_cons, count_data_app, Hd1, count_data_cons.
      rewrite count_binary_writes_cons, count_binary_writes_app, Hb1,
        count_binary_writes_cons.
      cbn [is_data_recv is_binary_write Nat.add].
      change (BinaryMessage =? BinaryMessage) with true. cbn iota.
      split; [lia|]. split; [lia|]. split.
      { intros els' Hx. rewrite (Hfell _ Hx).
        cbn [samples]. rewrite samples_app, Hs1. cbn [app samples].
        rewrite <- app_assoc. reflexivity. }
      split; [exact Hstop|].
      intros Hb. destruct Hq as (pre & Hpre & Hf). cbn in Hpre.
      rewrite Hpre. apply Forall_app. split; [exact Hf|exact (Hblk Hb)].
    + injection H as <- _ <-. subst why.
      rewrite count_data_cons, Hd1.
      rewrite count_binary_writes_cons, Hb1.
      cbn.
      split; [lia|]. split; [lia|]. split; [discriminate|].
      split; [intros why [= <-]; left; reflexivity|].
      intros _. exact Hq.
Qed.

(** After a failed read the loop has fallen through, and the summary over
    its samples follows the line for the failure. *)
Lemma ping_loop_fell_always xg size (k : nat) :
  forall els s x s' t,
    ping_loop env k size els s = (x, s', t) ->
    x = xg ->
    always (fell_next env xg size) (t ++ after_ping env size x).
Proof.
  induction k as [|k IH]; intros els s x s' t H; cbn in H.
  - injection H as <- _ <-. intros _. cbn [app after_ping].
    apply always_no_io, no_io_after_read.
  - unfold bind in H. cbn in H.
    destruct (cancelled s || parent_done env (polls s)).
    { injection H as <- _ <-. intros _. cbn [app after_ping].
      apply always_no_io, no_io_teardown. }
    unfold make_bytes in H.
    destruct (size <? 0) eqn:Hsize.
    { injection H as <- _ <-. intros _. cbn [app after_ping].
      apply always_no_io, no_io_teardown. }
    cbn in H.
    destruct (write_res env (writes s)) as [e|] eqn:Ew.
    { injection H as <- _ <-. intros _. cbn [app after_ping].
      split; [exact I|apply always_no_io, no_io_teardown]. }
    unfold ReadMessage in H. cbn in H.
    match type of H with
    | context [advance _ _ ?s1] =>
        destruct (advance (handlers env) (inq s) s1) as [[o1 s1'] t1] eqn:E1
    end.
    assert (Hadv : forall kk,
               read_cont cli_Qd (fell_Qe env xg size) o1 kk ->
               always (fell_next env xg size) kk ->
               always (fell_next env xg size) (t1 ++ kk)).
    { intros kk Hc Hal.
      refine (proj1 (advance_always env cli_Qd (fell_Qe env xg size)
                       (fell_Qw env xg size) _
                       (fun _ _ => I) (fun _ _ _ Hk => Hk) _ _ _ _ _ kk E1 Hc Hal)).
      intros e0 k0 (els0 & _ & ->). apply no_io_quiet.
      constructor; [reflexivity|apply (no_io_after_read env)]. }
    pose proof (advance_facts env _ _ _ _ _ E1) as (_ & _ & _ & _ & _ & _ & _ & Ho).
    destruct o1 as [[[mt message] [e|]]|why].
    + injection H as <- _ <-. intros Hx. cbn [app after_ping].
      split; [exact I|].
      rewrite <- app_assoc. cbn [app]. apply Hadv.
      * exists els. split; [exact (eq_sym Hx)|reflexivity].
      * split; [exact I|]. apply always_no_io, (no_io_after_read env).
    + cbn in H.
      match type of H with
      | context [ping_loop _ k _ ?els2 ?s2] =>
          destruct (ping_loop env k size els2 s2) as [[x2 s2'] t2] eqn:E2
      end.
      injection H as <- _ <-. intros Hx.
      apply IH in E2; [|exact Hx].
      cbn [app]. split; [exact I|].
      rewrite <- app_assoc. cbn [app]. apply Hadv; [exact I|].
      split; [exact I|exact E2].
    + subst why. injection H as <- _ <-. intros Hx. cbn [app after_ping].
      split; [exact I|].
      rewrite app_nil_r. rewrite <- (app_nil_r t1). apply Hadv; [reflexivity|exact I].
Qed.

End ClientIO.

Lemma no_io_after_loop (env : Env) (o : outcome unit) : no_io (after_loop env o).
Proof. destruct o; cbn [after_loop]; [apply no_io_teardown|constructor]. Qed.

Lemma count_close_summary (size : Z) (els : list Z) :
  count_close (summary size els) = 0%nat.
Proof. unfold summary. destruct (0 <? _); reflexivity. Qed.

(** ** The echo handler *)

(** X1.  The frames the handler writes are, in order, the answers to the
    frames it took from the connection: the echo of each text or binary
    frame and the pong of each ping, and nothing else. *)
Theorem echo_writes_answer_reads
    (env : Env) (r : Request) (inbound : list wire) :
  writes_of (trace_of (ServeHTTP env NewServer r (init inbound)))
  = flat_map reply_of
      (received (trace_of (ServeHTTP env NewServer r (init inbound)))).
Proof.
  destruct (ServeHTTP env NewServer r (init inbound)) as [[o s'] tr] eqn:E.
  cbn [trace_of snd].
  destruct (handshake env r) as [reason|] eqn:Hup.
  - apply ServeHTTP_run in E. rewrite Hup in E. destruct E as [_ ->].
    reflexivity.
  - destruct (ServeHTTP_loop env _ _ _ _ _ E Hup) as (s1 & t & El & -> & _).
    apply echo_loop_io in El. destruct El as [Hw _].
    rewrite writes_of_app, received_app, flat_map_app.
    rewrite (writes_of_no_io _ (no_io_after_loop env o)).
    rewrite (received_no_io _ (no_io_after_loop env o)).
    rewrite Hw. reflexivity.
Qed.

(** X2.  When the frames delivered to the handler include a close frame
    or a transport failure, the handler returns: it is never left waiting
    for a further frame. *)
Theorem handler_returns_when_peer_ends
    (env : Env) (r : Request) (inbound : list wire) :
  existsb ends_read inbound = true ->
  result_of (ServeHTTP env NewServer r (init inbound)) = Ret tt.
Proof.
  intros Hend.
  destruct (ServeHTTP env NewServer r (init inbound)) as [[o s'] tr] eqn:E.
  cbn [result_of fst].
  destruct (handshake env r) as [reason|] eqn:Hup.
  - apply ServeHTTP_run in E. rewrite Hup in E. apply E.
  - destruct (ServeHTTP_loop env _ _ _ _ _ E Hup) as (s1 & t & El & _ & _).
    pose proof (echo_loop_always env _ _ _ _ _ El (Nat.lt_succ_diag_r _))
      as ([-> | ->] & _); [reflexivity|].
    apply echo_loop_io in El. destruct El as [_ Hb].
    specialize (Hb eq_refl). cbn in Hb.
    apply existsb_ends_read in Hb. congruence.
Qed.

Lemma handler_returns_when_peer_ends_witness :
  existsb ends_read [WText [x61]; WClose 1000 []] = true
  /\ result_of (ServeHTTP calm NewServer get_root
                  (init [WText [x61]; WClose 1000 []])) = Ret tt.
Proof.
  split; [reflexivity|].
  exact (handler_returns_when_peer_ends calm get_root
           [WText [x61]; WClose 1000 []] eq_refl).
Defined.

(** X3.  When the transport fails under a read of the handler, the
    failure is logged as a failed read and nothing follows but the
    deferred calls; the handler returns. *)
Theorem handler_read_failure
    (env : Env) (r : Request) (inbound : list wire)
    (o : outcome unit) (s' : St) (tr pre post : list event) (e : error) :
  ServeHTTP env NewServer r (init inbound) = (o, s', tr) ->
  tr = pre ++ EvRecv (WFail e) :: post ->
  o = Ret tt
  /\ post = EvLog (LogErr (Errorf "couldn't read" e)) :: teardown env.
Proof.
  intros H Htr.
  pose proof (ServeHTTP_always env _ _ _ _ _ H) as Hal.
  rewrite Htr in Hal. apply always_split in Hal. cbn in Hal.
  unfold srv_Qe in Hal. subst post.
  split; [|reflexivity].
  apply (ServeHTTP_closed_returns env _ _ _ _ _ H).
  rewrite Htr, count_close_app, !count_close_cons, count_close_teardown. lia.
Qed.

Lemma handler_read_failure_witness :
  ServeHTTP calm NewServer get_root (init [WFail (ErrTransport 7)])
  = (Ret tt,
     {| inq := []; writes := 0; polls := 1; ticks := 0; cancelled := true |},
     [] ++ EvRecv (WFail (ErrTransport 7))
        :: [EvLog (LogErr (Errorf "couldn't read" (ErrTransport 7)));
            EvClose None; EvCancel])
  /\ [EvLog (LogErr (Errorf "couldn't read" (ErrTransport 7)));
      EvClose None; EvCancel]
     = EvLog (LogErr (Errorf "couldn't read" (ErrTransport 7))) :: teardown calm.
Proof.
  split; [reflexivity|].
  exact (proj2
    (handler_read_failure calm get_root [WFail (ErrTransport 7)]
       (Ret tt)
       {| inq := []; writes := 0; polls := 1; ticks := 0; cancelled := true |}
       ([] ++ EvRecv (WFail (ErrTransport 7))
           :: [EvLog (LogErr (Errorf "couldn't read" (ErrTransport 7)));
               EvClose None; EvCancel])
       []
       [EvLog (LogErr (Errorf "couldn't read" (ErrTransport 7)));
        EvClose None; EvCancel]
       (ErrTransport 7) eq_refl eq_refl)).
Defined.

(** X4.  When a write of the handler fails, the failure is logged and
    nothing follows but the deferred calls; the handler returns.  The
    failed write of an echo is logged as a failed write; the failed write
    of a pong comes back as the error of the read it happened in and is
    logged as a failed read. *)
Theorem handler_write_failure
    (env : Env) (r : Request) (inbound : list wire)
    (o : outcome unit) (s' : St) (tr pre post : list event)
    (mt : Z) (p : bytes) (e : error) :
  ServeHTTP env NewServer r (init inbound) = (o, s', tr) ->
  tr = pre ++ EvWrite mt p (Some e) :: post ->
  o = Ret tt
  /\ post = EvLog (LogErr (Errorf (if mt =? PongMessage
                                   then "couldn't read"
                                   else "couldn't write") e))
            :: teardown env.
Proof.
  intros H Htr.
  pose proof (ServeHTTP_always env _ _ _ _ _ H) as Hal.
  rewrite Htr in Hal. apply always_split in Hal. cbn in Hal.
  unfold srv_Qw, srv_Qe in Hal.
  assert (Hpost : post = EvLog (LogErr (Errorf (if mt =? PongMessage
                                                then "couldn't read"
                                                else "couldn't write") e))
                         :: teardown env).
  { destruct (mt =? PongMessage); exact Hal. }
  split; [|exact Hpost].
  apply (ServeHTTP_closed_returns env _ _ _ _ _ H).
  rewrite Htr, Hpost, count_close_app, !count_close_cons, count_close_teardown.
  lia.
Qed.

Lemma handler_write_failure_witness :
  ServeHTTP failing NewServer get_root (init [WBinary [x01]; WText [x02]])
  = (Ret tt,
     {| inq := []; writes := 2; polls := 2; ticks := 0; cancelled := true |},
     [EvRecv (WBinary [x01]); EvLog (LogRecv 1);
      EvWrite BinaryMessage [x01] None;
      EvRecv (WText [x02]); EvLog (LogRecv 1)]
     ++ EvWrite TextMessage [x02] (Some (ErrTransport 1))
        :: [EvLog (LogErr (Errorf "couldn't write" (ErrTransport 1)));
            EvClose (Some (ErrTransport 2));
            EvLog (LogErr (Errorf "couldn't close" (ErrTransport 2)));
            EvCancel])
  /\ [EvLog (LogErr (Errorf "couldn't write" (ErrTransport 1)));
      EvClose (Some (ErrTransport 2));
      EvLog (LogErr (Errorf "couldn't close" (ErrTransport 2)));
      EvCancel]
     = EvLog (LogErr (Errorf "couldn't write" (ErrTransport 1)))
       :: teardown failing.
Proof.
  split; [reflexivity|].
  exact (proj2
    (handler_write_failure failing get_root [WBinary [x01]; WText [x02]]
       (Ret tt)
       {| inq := []; writes := 2; polls := 2; ticks := 0; cancelled := true |}
       ([EvRecv (WBinary [x01]); EvLog (LogRecv 1);
         EvWrite BinaryMessage [x01] None;
         EvRecv (WText [x02]); EvLog (LogRecv 1)]
        ++ EvWrite TextMessage [x02] (Some (ErrTransport 1))
           :: [EvLog (LogErr (Errorf "couldn't write" (ErrTransport 1)));
               EvClose (Some (ErrTransport 2));
               EvLog (LogErr (Errorf "couldn't close" (ErrTransport 2)));
               EvCancel])
       [EvRecv (WBinary [x01]); EvLog (LogRecv 1);
        EvWrite BinaryMessage [x01] None;
        EvRecv (WText [x02]); EvLog (LogRecv 1)]
       [EvLog (LogErr (Errorf "couldn't write" (ErrTransport 1)));
        EvClose (Some (ErrTransport 2));
        EvLog (LogErr (Errorf "couldn't close" (ErrTransport 2)));
        EvCancel]
       TextMessage [x02] (ErrTransport 1) eq_refl eq_refl)).
Defined.

(** X5.  When the upgrade fails, the handler logs the failure and
    returns: there is no connection, so nothing is read, written or
    closed, and the frames are left where they were. *)
Theorem upgrade_failure
    (env : Env) (r : Request) (inbound : list wire) (reason : string) :
  handshake env r = Some reason ->
  exists s',
    ServeHTTP env NewServer r (init inbound)
    = (Ret tt, s',
       [EvLog (LogErr (Errorf "couldn't upgrade" (ErrHandshake reason)));
        EvCancel])
    /\ inq s' = inbound.
Proof.
  intros Hup.
  unfold ServeHTTP, defer, bind, Upgrade. cbn -[echo_loop].
  rewrite Hup. cbn. eexists. split; reflexivity.
Qed.

Lemma upgrade_failure_witness :
  handshake refusing get_root = Some "bad handshake"%string
  /\ exists s',
       ServeHTTP refusing NewServer get_root (init [WText [x61]])
       = (Ret tt, s',
          [EvLog (LogErr (Errorf "couldn't upgrade"
                            (ErrHandshake "bad handshake")));
           EvCancel])
       /\ inq s' = [WText [x61]].
Proof.
  split; [reflexivity|].
  exact (upgrade_failure refusing get_root [WText [x61]] "bad handshake" eq_refl).
Defined.

(** ** The probe client *)

(** X6.  When the dial fails with [e], [Ping] returns the error wrapping
    [e]; there is no connection, so nothing is read, written or closed. *)
Theorem dial_failure
    (env : Env) (host : string) (n size : Z) (insecure : bool)
    (inbound : list wire) (e : error) :
  dial env host insecure = Some e ->
  exists s',
    Ping env host n size insecure (init inbound)
    = (Ret (Some (Errorf "couldn't dial" e)), s', [EvCancel])
    /\ inq s' = inbound.
Proof.
  intros Hdial. unfold Ping, defer, bind. rewrite Hdial. cbn.
  eexists. split; reflexivity.
Qed.

Lemma dial_failure_witness :
  dial refusing "ws://h" false = Some (ErrTransport 3)
  /\ exists s',
       Ping refusing "ws://h" 3 16 false (init [WBinary []])
       = (Ret (Some (Errorf "couldn't dial" (ErrTransport 3))), s', [EvCancel])
       /\ inq s' = [WBinary []].
Proof.
  split; [reflexivity|].
  exact (dial_failure refusing "ws://h" 3 16 false [WBinary []]
           (ErrTransport 3) eq_refl).
Defined.

(** X7.  After a successful dial, [Ping] either comes back (returning or
    panicking) or is still waiting for a reply.  Whenever it comes back,
    [Close] was called exactly once, as the last thing before the
    deferred [cancel]; while it waits, [Close] was not called. *)
Theorem client_closes_once
    (env : Env) (host : string) (n size : Z) (insecure : bool)
    (inbound : list wire)
    (o : outcome (option error)) (s' : St) (tr : list event) :
  Ping env host n size insecure (init inbound) = (o, s', tr) ->
  dial env host insecure = None ->
  o <> Stop NoFuel
  /\ (o <> Stop Blocked ->
      count_close tr = 1%nat
      /\ exists t, tr = t ++ teardown env /\ count_close t = 0%nat)
  /\ (o = Stop Blocked -> count_close tr = 0%nat).
Proof.
  intros H Hdial. apply Ping_run in H. rewrite Hdial in H.
  destruct H as (x & sx & t & E & -> & ->).
  pose proof (ping_loop_counts env _ _ _ _ _ _ _ E) as (_ & _ & _ & Hc & _).
  pose proof (ping_loop_shape env _ _ _ _ _ _ _ E) as (_ & _ & _ & Hstop & _).
  destruct x as [[err|els]|why]; cbn [ping_result after_ping].
  - split; [discriminate|]. split; [|discriminate]. intros _.
    rewrite count_close_app, Hc, count_close_teardown. eauto.
  - split; [discriminate|]. split; [|discriminate]. intros _.
    rewrite !count_close_app, Hc, count_close_summary, count_close_teardown.
    split; [reflexivity|].
    exists (t ++ summary size els). rewrite <- app_assoc.
    split; [reflexivity|].
    rewrite count_close_app, Hc, count_close_summary. reflexivity.
  - destruct (Hstop why eq_refl) as [-> | [-> _]].
    + split; [discriminate|]. split; [congruence|]. intros _.
      rewrite app_nil_r. exact Hc.
    + split; [discriminate|]. split; [|discriminate]. intros _.
      rewrite count_close_app, Hc, count_close_teardown. eauto.
Qed.

Lemma client_closes_once_witness :
  Ping failing "ws://h" 3 1 false (init [WBinary [x00]])
  = (Ret (Some (Errorf "couldn't write" (ErrTransport 1))),
     {| inq := []; writes := 2; polls := 2; ticks := 3; cancelled := true |},
     [EvWrite BinaryMessage [x00] None; EvRecv (WBinary [x00]);
      EvLog (LogSent 1 10);
      EvWrite BinaryMessage [x00] (Some (ErrTransport 1));
      EvClose (Some (ErrTransport 2));
      EvLog (LogErr (Errorf "couldn't close" (ErrTransport 2)));
      EvCancel])
  /\ dial failing "ws://h" false = None
  /\ count_close
       [EvWrite BinaryMessage [x00] None; EvRecv (WBinary [x00]);
        EvLog (LogSent 1 10);
        EvWrite BinaryMessage [x00] (Some (ErrTransport 1));
        EvClose (Some (ErrTransport 2));
        EvLog (LogErr (Errorf "couldn't close" (ErrTransport 2)));
        EvCancel] = 1%nat.
Proof.
  split; [reflexivity|]. split; [reflexivity|].
  refine (proj1 (proj1 (proj2
    (client_closes_once failing "ws://h" 3 1 false [WBinary [x00]]
       (Ret (Some (Errorf "couldn't write" (ErrTransport 1))))
       {| inq := []; writes := 2; polls := 2; ticks := 3; cancelled := true |}
       [EvWrite BinaryMessage [x00] None; EvRecv (WBinary [x00]);
        EvLog (LogSent 1 10);
        EvWrite BinaryMessage [x00] (Some (ErrTransport 1));
        EvClose (Some (ErrTransport 2));
        EvLog (LogErr (Errorf "couldn't close" (ErrTransport 2)));
        EvCancel]
       eq_refl eq_refl)) _)).
  discriminate.
Defined.



(** X9.  [Ping] sends at most [n] probe frames (none for [n <= 0]), and
    never a probe before the reply to the previous one was read: at any
    end of a run the probes sent are the replies read, or one more. *)
Theorem probes_bounded_and_alternate
    (env : Env) (host : string) (n size : Z) (insecure : bool)
    (inbound : list wire) :
  let tr := trace_of (Ping env host n size insecure (init inbound)) in
  (count_binary_writes tr <= Z.to_nat n)%nat
  /\ (count_data tr <= count_binary_writes tr <= S (count_data tr))%nat.
Proof.
  destruct (Ping env host n size insecure (init inbound)) as [[o s'] tr] eqn:E.
  cbn [trace_of snd]. apply Ping_run in E.
  destruct (dial env host insecure).
  - destruct E as [_ ->]. cbn. lia.
  - destruct E as (x & sx & t & E & _ & ->).
    rewrite count_binary_writes_app, count_data_app,
      (count_binary_writes_no_io _ (no_io_after_ping env size x)),
      (count_data_no_io _ (no_io_after_ping env size x)), !Nat.add_0_r.
    pose proof (ping_loop_shape env _ _ _ _ _ _ _ E) as (Hle & Halt & _).
    split; [exact Hle|exact Halt].
Qed.

(** X10.  Whenever a run of [Ping] emits the summary, it is computed from
    exactly the durations logged before it, at least one: the byte count
    is [size] times their number and the mean is their sum (in 64-bit
    arithmetic) divided by their number; only the deferred calls follow,
    and [Ping] returns [nil]. *)
Theorem summary_over_logged_samples
    (env : Env) (host : string) (n size : Z) (insecure : bool)
    (inbound : list wire)
    (o : outcome (option error)) (s' : St) (tr pre post : list event) :
  Ping env host n size insecure (init inbound) = (o, s', tr) ->
  tr = pre ++ EvLog LogAverage :: post ->
  let ds := samples pre in
  let count := Z.of_nat (List.length ds) in
  o = Ret None
  /\ 0 < count
  /\ post = EvLog (LogSent (wrap64 (size * count))
                           (Z.quot (wrap64 (fold_right Z.add 0 ds)) count))
            :: teardown env.
Proof.
  intros H Htr ds count.
  apply Ping_run in H.
  destruct (dial env host insecure).
  { destruct H as [_ ->]. destruct pre as [|? [|? ?]]; discriminate. }
  destruct H as (x & sx & t & E & -> & Ht).
  pose proof (ping_loop_counts env _ _ _ _ _ _ _ E) as (_ & _ & Hns & _).
  pose proof (ping_loop_shape env _ _ _ _ _ _ _ E) as (_ & _ & Hfell & _).
  assert (Hin : In (EvLog LogAverage) (t ++ after_ping env size x)).
  { rewrite <- Ht, Htr. apply in_or_app. right. left. reflexivity. }
  assert (Hnot : forall l, no_summary l -> ~ In (EvLog LogAverage) l).
  { intros l Hl Hi. unfold no_summary in Hl. rewrite Forall_forall in Hl.
    specialize (Hl _ Hi). discriminate. }
  destruct x as [[err|els]|why]; cbn [after_ping] in *.
  - exfalso. apply (Hnot (t ++ teardown env)); [|exact Hin].
    apply no_summary_app; [exact Hns|apply no_summary_teardown].
  - specialize (Hfell els eq_refl). cbn in Hfell. subst els.
    unfold summary in Ht, Hin.
    destruct (0 <? Z.of_nat (List.length (samples t))) eqn:Hpos.
    + apply Z.ltb_lt in Hpos. cbn [app] in Ht.
      rewrite Htr in Ht. symmetry in Ht.
      apply only_average in Ht;
        [|exact Hns|constructor; [reflexivity|apply no_summary_teardown]].
      destruct Ht as [-> ->]. fold ds. fold count.
      split; [reflexivity|]. split; [exact Hpos|].
      unfold count, ds. rewrite sum_durations_wrap. reflexivity.
    + exfalso. cbn [app] in Hin.
      apply (Hnot (t ++ teardown env)); [|exact Hin].
      apply no_summary_app; [exact Hns|apply no_summary_teardown].
  - exfalso. destruct why; cbn [after_ping] in Hin.
    + rewrite app_nil_r in Hin. exact (Hnot _ Hns Hin).
    + apply (Hnot (t ++ teardown env)); [|exact Hin].
      apply no_summary_app; [exact Hns|apply no_summary_teardown].
    + rewrite app_nil_r in Hin. exact (Hnot _ Hns Hin).
Qed.

Lemma summary_over_logged_samples_witness :
  Ping calm "ws://h" 3 1 false (init [WBinary [x00]; WFail (ErrTransport 7)])
  = (Ret None,
     {| inq := []; writes := 2; polls := 2; ticks := 3; cancelled := true |},
     [EvWrite BinaryMessage [x00] None; EvRecv (WBinary [x00]);
      EvLog (LogSent 1 10); EvWrite BinaryMessage [x00] None;
      EvRecv (WFail (ErrTransport 7));
      EvLog (LogErr (Errorf "couldn't read" (ErrTransport 7)))]
     ++ EvLog LogAverage :: [EvLog (LogSent 1 10); EvClose None; EvCancel])
  /\ [EvLog (LogSent 1 10); EvClose None; EvCancel]
     = EvLog (LogSent (wrap64 (1 * 1)) (Z.quot (wrap64 (10 + 0)) 1))
       :: teardown calm.
Proof.
  split; [reflexivity|].
  exact (proj2 (proj2
    (summary_over_logged_samples calm "ws://h" 3 1 false
       [WBinary [x00]; WFail (ErrTransport 7)]
       (Ret None)
       {| inq := []; writes := 2; polls := 2; ticks := 3; cancelled := true |}
       ([EvWrite BinaryMessage [x00] None; EvRecv (WBinary [x00]);
         EvLog (LogSent 1 10); EvWrite BinaryMessage [x00] None;
         EvRecv (WFail (ErrTransport 7));
         EvLog (LogErr (Errorf "couldn't read" (ErrTransport 7)))]
        ++ EvLog LogAverage :: [EvLog (LogSent 1 10); EvClose None; EvCancel])
       [EvWrite BinaryMessage [x00] None; EvRecv (WBinary [x00]);
        EvLog (LogSent 1 10); EvWrite BinaryMessage [x00] None;
        EvRecv (WFail (ErrTransport 7));
        EvLog (LogErr (Errorf "couldn't read" (ErrTransport 7)))]
       [EvLog (LogSent 1 10); EvClose None; EvCancel]
       eq_refl eq_refl))).
Defined.

(** X11.  When a read of [Ping] fails, by a transport failure or by a
    close frame, the line for the failure is followed by the summary over
    exactly the round trips completed before (no summary if there were
    none) and then by the deferred calls. *)
Theorem read_failure_reports_completed
    (env : Env) (host : string) (n size : Z) (insecure : bool)
    (inbound : list wire)
    (o : outcome (option error)) (s' : St) (tr : list event) :
  Ping env host n size insecure (init inbound) = (o, s', tr) ->
  (forall pre e post,
      tr = pre ++ EvRecv (WFail e) :: post ->
      post = EvLog (LogErr (Errorf "couldn't read" e))
             :: summary size (samples pre) ++ teardown env)
  /\ (forall pre code text post,
         tr = pre ++ EvRecv (WClose code text) :: post ->
         post = EvLog (LogClose code text) :: EvCancel
                :: EvLog (LogErr (Errorf "couldn't read" (CloseError code text)))
                :: summary size (samples pre) ++ teardown env).
Proof.
  intros H. apply Ping_run in H.
  destruct (dial env host insecure).
  { destruct H as [_ ->].
    split; intros; destruct pre as [|? [|? ?]]; discriminate. }
  destruct H as (x & sx & t & E & _ & ->).
  pose proof (ping_loop_fell_always env x size _ _ _ _ _ _ E eq_refl) as Hal.
  pose proof (ping_loop_shape env _ _ _ _ _ _ _ E) as (_ & _ & Hfell & _).
  split.
  - intros pre e post Htr. rewrite Htr in Hal.
    apply always_split in Hal. destruct Hal as (els & -> & ->).
    specialize (Hfell els eq_refl). cbn in Hfell.
    cbn [after_ping] in Htr.
    change (pre ++ EvRecv (WFail e)
              :: EvLog (LogErr (Errorf "couldn't read" e))
              :: summary size els ++ teardown env)
      with (pre ++ [EvRecv (WFail e);
                    EvLog (LogErr (Errorf "couldn't read" e))]
                ++ summary size els ++ teardown env) in Htr.
    rewrite (app_assoc pre) in Htr. apply app_inv_tail in Htr.
    rewrite Hfell, Htr, samples_app. cbn. rewrite app_nil_r. reflexivity.
  - intros pre code text post Htr. rewrite Htr in Hal.
    apply always_split in Hal. destruct Hal as (post' & -> & els & -> & ->).
    specialize (Hfell els eq_refl). cbn in Hfell.
    cbn [after_ping] in Htr.
    change (pre ++ EvRecv (WClose code text)
              :: EvLog (LogClose code text) :: EvCancel
              :: EvLog (LogErr (Errorf "couldn't read" (CloseError code text)))
              :: summary size els ++ teardown env)
      with (pre ++ [EvRecv (WClose code text);
                    EvLog (LogClose code text); EvCancel;
                    EvLog (LogErr (Errorf "couldn't read"
                                     (CloseError code text)))]
                ++ summary size els ++ teardown env) in Htr.
    rewrite (app_assoc pre) in Htr. apply app_inv_tail in Htr.
    rewrite Hfell, Htr, samples_app. cbn. rewrite app_nil_r. reflexivity.
Qed.

Lemma read_failure_reports_completed_witness :
  Ping calm "ws://h" 3 1 false (init [WBinary [x00]; WFail (ErrTransport 7)])
  = (Ret None,
     {| inq := []; writes := 2; polls := 2; ticks := 3; cancelled := true |},
     [EvWrite BinaryMessage [x00] None; EvRecv (WBinary [x00]);
      EvLog (LogSent 1 10); EvWrite BinaryMessage [x00] None]
     ++ EvRecv (WFail (ErrTransport 7))
        :: [EvLog (LogErr (Errorf "couldn't read" (ErrTransport 7)));
            EvLog LogAverage; EvLog (LogSent 1 10); EvClose None; EvCancel])
  /\ [EvLog (LogErr (Errorf "couldn't read" (ErrTransport 7)));
      EvLog LogAverage; EvLog (LogSent 1 10); EvClose None; EvCancel]
     = EvLog (LogErr (Errorf "couldn't read" (ErrTransport 7)))
       :: summary 1 [10] ++ teardown calm.
Proof.
  split; [reflexivity|].
  exact (proj1
    (read_failure_reports_completed calm "ws://h" 3 1 false
       [WBinary [x00]; WFail (ErrTransport 7)]
       (Ret None)
       {| inq := []; writes := 2; polls := 2; ticks := 3; cancelled := true |}
       ([EvWrite BinaryMessage [x00] None; EvRecv (WBinary [x00]);
         EvLog (LogSent 1 10); EvWrite BinaryMessage [x00] None]
        ++ EvRecv (WFail (ErrTransport 7))
           :: [EvLog (LogErr (Errorf "couldn't read" (ErrTransport 7)));
               EvLog LogAverage; EvLog (LogSent 1 10); EvClose None; EvCancel])
       eq_refl)
    [EvWrite BinaryMessage [x00] None; EvRecv (WBinary [x00]);
     EvLog (LogSent 1 10); EvWrite BinaryMessage [x00] None]
    (ErrTransport 7)
    [EvLog (LogErr (Errorf "couldn't read" (ErrTransport 7)));
     EvLog LogAverage; EvLog (LogSent 1 10); EvClose None; EvCancel]
    eq_refl).
Defined.

(** X12.  When the frames delivered to [Ping] include a close frame or a
    transport failure, [Ping] comes back: it is never left waiting for a
    reply. *)
Theorem client_returns_when_peer_ends
    (env : Env) (host : string) (n size : Z) (insecure : bool)
    (inbound : list wire) :
  existsb ends_read inbound = true ->
  result_of (Ping env host n size insecure (init inbound)) <> Stop Blocked.
Proof.
  intros Hend.
  destruct (Ping env host n size insecure (init inbound)) as [[o s'] tr] eqn:E.
  cbn [result_of fst]. apply Ping_run in E.
  destruct (dial env host insecure).
  - destruct E as [-> _]. discriminate.
  - destruct E as (x & sx & t & E & -> & _).
    pose proof (ping_loop_shape env _ _ _ _ _ _ _ E) as (_ & _ & _ & _ & Hb).
    intros Hx. destruct x as [[err|els]|why]; try discriminate.
    injection Hx as ->. specialize (Hb eq_refl). cbn in Hb.
    apply existsb_ends_read in Hb. congruence.
Qed.

Lemma client_returns_when_peer_ends_witness :
  existsb ends_read [WBinary [x00]; WFail (ErrTransport 7)] = true
  /\ result_of (Ping calm "ws://h" 3 1 false
                  (init [WBinary [x00]; WFail (ErrTransport 7)]))
     <> Stop Blocked.
Proof.
  split; [reflexivity|].
  exact (client_returns_when_peer_ends calm "ws://h" 3 1 false
           [WBinary [x00]; WFail (ErrTransport 7)] eq_refl).
Defined.

(** ** Cancellation of the handler, errors of the client *)

Section MoreLoops.

Variable env : Env.

(** The loop of the handler returns once the parent context is done at
    the check that follows the messages it read. *)
Lemma echo_loop_cancelled (fuel : nat) :
  forall s o s' t,
    echo_loop env fuel s = (o, s', t) ->
    (List.length (inq s) < fuel)%nat ->
    parent_done env (polls s + count_data t) = true ->
    o = Ret tt.
Proof.
  induction fuel as [|fuel IH]; intros s o s' t H Hf Hpd; [lia|].
  cbn in H. unfold bind in H. cbn in H.
  destruct (cancelled s || parent_done env (polls s)) eqn:Hdone.
  { injection H as <- _ _. reflexivity. }
  apply orb_false_elim in Hdone. destruct Hdone as [_ Hpar].
  unfold ReadMessage in H. cbn in H.
  match type of H with
  | context [advance _ _ ?s1] =>
      destruct (advance (handlers env) (inq s) s1) as [[o1 s1'] t1] eqn:E1
  end.
  pose proof (advance_facts env _ _ _ _ _ E1)
    as (Hp1 & _ & Hd1 & _ & _ & _ & _ & Ho).
  cbn in Hp1.
  destruct o1 as [[[mt message] [e|]]|why]; cbn in Hd1.
  - injection H as <- _ _. reflexivity.
  - cbn in H.
    destruct (write_res env (writes s1')) as [e|] eqn:Ew.
    + injection H as <- _ _. reflexivity.
    + match type of H with
      | context [echo_loop _ _ ?s2] =>
          destruct (echo_loop env fuel s2) as [[o2 s2'] t2] eqn:E2
      end.
      injection H as <- _ <-.
      apply IH in E2; [exact E2|cbn; destruct Ho; lia|].
      cbn. rewrite Hp1.
      rewrite count_data_app, Hd1, !count_data_cons in Hpd. cbn in Hpd.
      replace (S (polls s) + count_data t2)%nat
        with (polls s + (1 + count_data t2))%nat by lia.
      exact Hpd.
  - injection H as _ _ <-. rewrite Hd1, Nat.add_0_r, Hpar in Hpd.
    discriminate.
Qed.

(** The loop of the client returns an error only for a failed write of a
    probe, which is then the last event of the loop. *)
Lemma ping_loop_error size (k : nat) :
  forall els s x s' t err,
    ping_loop env k size els s = (x, s', t) ->
    x = Ret (Returned (Some err)) ->
    exists pre e,
      t = pre ++ [EvWrite BinaryMessage (repeat x00 (Z.to_nat size)) (Some e)]
      /\ err = Errorf "couldn't write" e.
Proof.
  induction k as [|k IH]; intros els s x s' t err H Hx; cbn in H.
  - injection H as <- _ _. discriminate.
  - unfold bind in H. cbn in H.
    destruct (cancelled s || parent_done env (polls s)).
    { injection H as <- _ _. discriminate. }
    unfold make_bytes in H.
    destruct (size <? 0).
    { injection H as <- _ _. discriminate. }
    cbn in H.
    destruct (write_res env (writes s)) as [e|] eqn:Ew.
    { injection H as <- _ <-. injection Hx as <-.
      exists [], e. split; reflexivity. }
    unfold ReadMessage in H. cbn in H.
    match type of H with
    | context [advance _ _ ?s1] =>
        destruct (advance (handlers env) (inq s) s1) as [[o1 s1'] t1] eqn:E1
    end.
    destruct o1 as [[[mt message] [e|]]|why].
    + injection H as <- _ _. discriminate.
    + cbn in H.
      match type of H with
      | context [ping_loop _ k _ ?els2 ?s2] =>
          destruct (ping_loop env k size els2 s2) as [[x2 s2'] t2] eqn:E2
      end.
      injection H as <- _ <-.
      destruct (IH _ _ _ _ _ _ E2 Hx) as (pre & e & -> & ->).
      eexists (_ :: t1 ++ _ :: pre), e.
      split; [|reflexivity].
      cbn [app]. rewrite <- app_assoc. reflexivity.
    + injection H as <- _ _. discriminate.
Qed.

End MoreLoops.

(** X13.  After a successful upgrade, when the parent context is done at
    the boundary check that follows the [k] messages the handler read, the
    handler returns instead of waiting for a further frame. *)
Theorem handler_returns_on_cancellation
    (env : Env) (r : Request) (inbound : list wire)
    (o : outcome unit) (s' : St) (tr : list event) (k : nat) :
  ServeHTTP env NewServer r (init inbound) = (o, s', tr) ->
  handshake env r = None ->
  count_data tr = k ->
  parent_done env k = true ->
  o = Ret tt /\ exists t, tr = t ++ teardown env.
Proof.
  intros H Hup Hk Hpd.
  destruct (ServeHTTP_loop env _ _ _ _ _ H Hup) as (s1 & t & El & -> & _).
  rewrite count_data_app, (count_data_no_io _ (no_io_after_loop env o)),
    Nat.add_0_r in Hk.
  assert (Ho : o = Ret tt).
  { apply (echo_loop_cancelled env _ _ _ _ _ El); [cbn; lia|].
    cbn. rewrite Hk. exact Hpd. }
  subst o. split; [reflexivity|]. exists t. reflexivity.
Qed.

Lemma handler_returns_on_cancellation_witness :
  ServeHTTP cancelled_after_one NewServer get_root (init [WText [x61]])
  = (Ret tt,
     {| inq := []; writes := 1; polls := 2; ticks := 0; cancelled := true |},
     [EvRecv (WText [x61]); EvLog (LogRecv 1);
      EvWrite TextMessage [x61] None; EvClose None; EvCancel])
  /\ handshake cancelled_after_one get_root = None
  /\ parent_done cancelled_after_one 1 = true
  /\ exists t,
       [EvRecv (WText [x61]); EvLog (LogRecv 1);
        EvWrite TextMessage [x61] None; EvClose None; EvCancel]
       = t ++ teardown cancelled_after_one.
Proof.
  split; [reflexivity|]. split; [reflexivity|]. split; [reflexivity|].
  exact (proj2
    (handler_returns_on_cancellation cancelled_after_one get_root
       [WText [x61]]
       (Ret tt)
       {| inq := []; writes := 1; polls := 2; ticks := 0; cancelled := true |}
       [EvRecv (WText [x61]); EvLog (LogRecv 1);
        EvWrite TextMessage [x61] None; EvClose None; EvCancel]
       1%nat eq_refl eq_refl eq_refl eq_refl)).
Defined.

(** X14.  [Ping] returns an error in two cases only: the dial failed, and
    nothing else happened; or the write of a probe frame failed, and that
    write is the last event before the deferred calls.  The error wraps
    the failure with the message for its case. *)
Theorem ping_error_causes
    (env : Env) (host : string) (n size : Z) (insecure : bool)
    (inbound : list wire)
    (s' : St) (tr : list event) (err : error) :
  Ping env host n size insecure (init inbound) = (Ret (Some err), s', tr) ->
  (exists e,
      dial env host insecure = Some e
      /\ err = Errorf "couldn't dial" e
      /\ tr = [EvCancel])
  \/ (exists pre e,
        dial env host insecure = None
        /\ err = Errorf "couldn't write" e
        /\ tr = pre
                ++ EvWrite BinaryMessage (repeat x00 (Z.to_nat size)) (Some e)
                :: teardown env).
Proof.
  intros H. apply Ping_run in H.
  destruct (dial env host insecure) as [e|].
  - left. destruct H as [Ho ->]. injection Ho as ->. eauto.
  - right. destruct H as (x & sx & t & E & Hx & ->).
    destruct x as [[[err'|]|els]|why]; try discriminate.
    injection Hx as ->.
    destruct (ping_loop_error env _ _ _ _ _ _ _ _ E eq_refl)
      as (pre & e & -> & ->).
    exists pre, e. cbn [after_ping]. rewrite <- app_assoc.
    repeat split.
Qed.

Lemma ping_error_causes_witness :
  Ping failing "ws://h" 3 1 false (init [WBinary [x00]])
  = (Ret (Some (Errorf "couldn't write" (ErrTransport 1))),
     {| inq := []; writes := 2; polls := 2; ticks := 3; cancelled := true |},
     [EvWrite BinaryMessage [x00] None; EvRecv (WBinary [x00]);
      EvLog (LogSent 1 10);
      EvWrite BinaryMessage [x00] (Some (ErrTransport 1));
      EvClose (Some (ErrTransport 2));
      EvLog (LogErr (Errorf "couldn't close" (ErrTransport 2)));
      EvCancel])
  /\ ((exists e,
         dial failing "ws://h" false = Some e
         /\ Errorf "couldn't write" (ErrTransport 1) = Errorf "couldn't dial" e
         /\ [EvWrite BinaryMessage [x00] None; EvRecv (WBinary [x00]);
             EvLog (LogSent 1 10);
             EvWrite BinaryMessage [x00] (Some (ErrTransport 1));
             EvClose (Some (ErrTransport 2));
             EvLog (LogErr (Errorf "couldn't close" (ErrTransport 2)));
             EvCancel] = [EvCancel])
      \/ (exists pre e,
            dial failing "ws://h" false = None
            /\ Errorf "couldn't write" (ErrTransport 1)
               = Errorf "couldn't write" e
            /\ [EvWrite BinaryMessage [x00] None; EvRecv (WBinary [x00]);
                EvLog (LogSent 1 10);
                EvWrite BinaryMessage [x00] (Some (ErrTransport 1));
                EvClose (Some (ErrTransport 2));
                EvLog (LogErr (Errorf "couldn't close" (ErrTransport 2)));
                EvCancel]
               = pre
                 ++ EvWrite BinaryMessage (repeat x00 (Z.to_nat 1)) (Some e)
                 :: teardown failing)).
Proof.
  split; [reflexivity|].
  exact (ping_error_causes failing "ws://h" 3 1 false [WBinary [x00]]
           {| inq := []; writes := 2; polls := 2; ticks := 3;
              cancelled := true |}
           [EvWrite BinaryMessage [x00] None; EvRecv (WBinary [x00]);
            EvLog (LogSent 1 10);
            EvWrite BinaryMessage [x00] (Some (ErrTransport 1));
            EvClose (Some (ErrTransport 2));
            EvLog (LogErr (Errorf "couldn't close" (ErrTransport 2)));
            EvCancel]
           (Errorf "couldn't write" (ErrTransport 1)) eq_refl).
Defined.
